(** * scripts/build_moonblade_doc.py

    The script runs [./target/debug/xan map --functions], keeps the text the
    child wrote on its standard output, scans it with one compiled regular
    expression ([FUNCTION_RE], flag [re.I]) and prints every tuple that
    [findall] returns.

    The development has three parts:
    - the program: Python text ([str] as a list of code points), the part of
      the [re] library the pattern uses (sets, [\s], greedy repeats, groups,
      the [IGNORECASE] flag, [findall]), the built-ins [repr] and [print],
      [subprocess.run] and the script itself;
    - the vocabulary of the properties: what a pattern matches regardless of
      search order, the shape of an entry, the leftmost scan as a relation,
      texts made of lines;
    - the proofs: the backtracking matcher is sound and complete for the
      declarative reading, one attempt of [FUNCTION_RE] is characterised as
      text, [findall] computes the scan, and the properties of the script
      follow. *)

From Stdlib Require Import String Ascii List NArith ZArith Bool Arith Lia.
Import ListNotations.

Set Implicit Arguments.

(** ** Python text *)

(** A Python [str] is a sequence of Unicode code points. *)
Definition codepoint := N.
Definition pystr := list codepoint.

Definition chr (a : ascii) : codepoint := N_of_ascii a.

(** [str "..."] writes an ASCII literal as Python text. *)
Definition str (s : string) : pystr := List.map chr (list_ascii_of_string s).

Definition LF : codepoint := 10%N.
Definition TAB : codepoint := 9%N.
Definition CR : codepoint := 13%N.

(** ** The [re] library, as far as [FUNCTION_RE] uses it *)

Module Re.

(** Members of a set [[...]]. *)
Inductive set_item : Type :=
| Item (c : codepoint)            (* one character *)
| Range (lo hi : codepoint)       (* lo-hi *)
| Category_space.                 (* \s *)

(** Parsed patterns, named after the opcodes of the library's parser. *)
Inductive regex : Type :=
| Empty : regex
| Literal (c : codepoint)
| In (items : list set_item)
| Cat (r1 r2 : regex)
| Max_repeat (lo : nat) (hi : option nat) (r : regex)   (* greedy {lo,hi} *)
| Subpattern (group : option nat) (r : regex).          (* (...) or (?:...) *)

Definition star r := Max_repeat 0 None r.
Definition plus r := Max_repeat 1 None r.
Definition opt r := Max_repeat 0 (Some 1) r.
Definition exactly n r := Max_repeat n (Some n) r.

Fixpoint literals (s : pystr) : regex :=
  match s with
  | [] => Empty
  | c :: s' => Cat (Literal c) (literals s')
  end.

(** [\s] on text patterns: the characters for which [str.isspace] holds. *)
Definition is_space (ch : codepoint) : bool :=
  ((9 <=? ch) && (ch <=? 13) || (28 <=? ch) && (ch <=? 32)
   || (ch =? 133) || (ch =? 160) || (ch =? 5760)
   || (8192 <=? ch) && (ch <=? 8202)
   || (ch =? 8232) || (ch =? 8233) || (ch =? 8239) || (ch =? 8287)
   || (ch =? 12288))%N.

(** Lower-casing as the matcher applies it under [IGNORECASE].  Only the
    characters whose lower case is an ASCII character are moved: the ASCII
    capitals, U+0130 (capital I with dot above) and U+212A (Kelvin sign).
    Every other character is sent by the library to itself or to another
    non-ASCII character; it is left in place here, which changes nothing for
    sets made of ASCII characters and [\s]. *)
Definition lower (ch : codepoint) : codepoint :=
  (if (65 <=? ch) && (ch <=? 90) then ch + 32
   else if ch =? 304 then 105
   else if ch =? 8490 then 107
   else ch)%N.

(** [_casefix]: other lower-case characters with the same upper case. *)
Definition casefix (ch : codepoint) : list codepoint :=
  (if ch =? 105 then [305]          (* i: dotless i *)
   else if ch =? 115 then [383]     (* s: long s *)
   else [])%N.

Definition mem (ch : codepoint) (l : list codepoint) : bool :=
  existsb (N.eqb ch) l.

(** The characters of the range lo..hi, both ends included. *)
Definition range_chars (lo hi : codepoint) : list codepoint :=
  List.map (fun i => (lo + N.of_nat i)%N) (seq 0 (N.to_nat (hi + 1 - lo))).

(** The character map the compiler builds for a set under [IGNORECASE]: every
    member lower-cased, together with its [casefix] companions. *)
Definition folded (c : codepoint) : list codepoint :=
  lower c :: casefix (lower c).

Definition in_item (icase : bool) (it : set_item) (ch : codepoint) : bool :=
  match it with
  | Item c => if icase then mem ch (folded c) else (ch =? c)%N
  | Range lo hi =>
      if icase then existsb (fun c => mem ch (folded c)) (range_chars lo hi)
      else ((lo <=? ch) && (ch <=? hi))%N
  | Category_space => is_space ch
  end.

(** Under [IGNORECASE] the subject character is lower-cased, then looked up. *)
Definition in_set (icase : bool) (items : list set_item) (ch : codepoint) : bool :=
  let c := if icase then lower ch else ch in
  existsb (fun it => in_item icase it c) items.

Definition literal_ok (icase : bool) (c ch : codepoint) : bool :=
  if icase then mem (lower ch) (folded c) else (ch =? c)%N.

(** *** The backtracking matcher *)

(** Captured groups, newest first: group number and captured text. *)
Definition captures := list (nat * pystr).

(** A matcher state: the text still to read and the groups closed so far. *)
Definition state : Type := pystr * captures.

Definition rest (st : state) : pystr := fst st.
Definition caps (st : state) : captures := snd st.

(** The text read between two states of one attempt. *)
Definition consumed (st st' : state) : pystr :=
  firstn (length (rest st) - length (rest st')) (rest st).

Definition mark (g : option nat) (s : pystr) (cs : captures) : captures :=
  match g with
  | Some i => (i, s) :: cs
  | None => cs
  end.

Fixpoint group (i : nat) (cs : captures) : option pystr :=
  match cs with
  | [] => None
  | (j, s) :: cs' => if Nat.eqb i j then Some s else group i cs'
  end.

Section Matcher.

Variable A : Type.
Variable icase : bool.

Definition cont : Type := state -> option A.

(** The [lo] compulsory iterations of a repeat. *)
Fixpoint repeat_min (body : cont -> cont) (n : nat) (k : cont) : cont :=
  match n with
  | 0 => k
  | S n' => body (repeat_min body n' k)
  end.

(** The optional iterations, greedy: one more iteration is tried first, and
    the continuation is tried where the iteration (or what follows it) fails.
    An iteration that reads nothing is not repeated, which is how the library
    keeps a repeat of an empty match from looping. *)
Fixpoint repeat_greedy (body : cont -> cont) (n : nat) (k : cont) (st : state)
  : option A :=
  match n with
  | 0 => k st
  | S n' =>
      match body (fun st' =>
                    if length (rest st') <? length (rest st)
                    then repeat_greedy body n' k st'
                    else None) st with
      | Some x => Some x
      | None => k st
      end
  end.

(** How many optional iterations a repeat may still make: [hi - lo] when the
    repeat is bounded, and otherwise one per character left, since each of
    them reads at least one. *)
Definition budget (lo : nat) (hi : option nat) (st : state) : nat :=
  match hi with
  | Some h => h - lo
  | None => length (rest st)
  end.

Fixpoint sre_match (r : regex) (k : cont) (st : state) : option A :=
  match r with
  | Empty => k st
  | Literal c =>
      match rest st with
      | ch :: s => if literal_ok icase c ch then k (s, caps st) else None
      | [] => None
      end
  | In items =>
      match rest st with
      | ch :: s => if in_set icase items ch then k (s, caps st) else None
      | [] => None
      end
  | Cat r1 r2 => sre_match r1 (sre_match r2 k) st
  | Max_repeat lo hi r1 =>
      repeat_min (sre_match r1) lo
        (fun st1 => repeat_greedy (sre_match r1) (budget lo hi st1) k st1) st
  | Subpattern g r1 =>
      sre_match r1 (fun st' => k (rest st', mark g (consumed st st') (caps st'))) st
  end.

End Matcher.

(** One attempt at the head of [s]: the state after the first match found. *)
Definition match_here (icase : bool) (r : regex) (s : pystr) : option state :=
  sre_match icase r (fun st => Some st) (s, []).

(** The number of groups of a pattern. *)
Fixpoint ngroups (r : regex) : nat :=
  match r with
  | Empty | Literal _ | In _ => 0
  | Cat r1 r2 => Nat.max (ngroups r1) (ngroups r2)
  | Max_repeat _ _ r1 => ngroups r1
  | Subpattern g r1 =>
      Nat.max (match g with Some i => i | None => 0 end) (ngroups r1)
  end.

(** What [findall] yields for one match: the matched text when the pattern has
    no group, the group when it has one, a tuple of the groups otherwise.  A
    group that took no part in the match gives the empty text. *)
Inductive item : Type :=
| Text (s : pystr)
| Tuple (fields : list pystr).

Definition group_text (cs : captures) (i : nat) : pystr :=
  match group i cs with
  | Some s => s
  | None => []
  end.

Definition item_of (r : regex) (whole : pystr) (cs : captures) : item :=
  match ngroups r with
  | 0 => Text whole
  | 1 => Text (group_text cs 1)
  | n => Tuple (List.map (group_text cs) (seq 1 n))
  end.

(** [scan skip s]: the scan of [findall] over the text [s], of which the first
    [skip] characters belong to the match found last.  Attempts are made at
    every position from left to right; after a match the scan resumes where
    the match ended, and one character further on when the match was
    empty. *)
Fixpoint scan (icase : bool) (r : regex) (skip : nat) (s : pystr) : list item :=
  match s with
  | [] =>
      match skip, match_here icase r [] with
      | 0, Some st => [item_of r [] (caps st)]
      | _, _ => []
      end
  | _ :: s' =>
      match skip with
      | S n => scan icase r n s'
      | 0 =>
          match match_here icase r s with
          | Some st =>
              item_of r (consumed (s, []) st) (caps st)
                :: scan icase r (length s - length (rest st) - 1) s'
          | None => scan icase r 0 s'
          end
      end
  end.

Definition findall (icase : bool) (r : regex) (s : pystr) : list item :=
  scan icase r 0 s.

End Re.

Import Re.

(** ** The pattern of the script *)

(** The pattern as the script writes it (a raw string literal). *)
Definition FUNCTION_RE_source : string :=
  "\s{4} - ([a-z0-9_]+)\(((?:[a-z0-9=?*_<>]+\s*,?\s*)*)\) -> ([a-z\[\]?,| ]+)".

Definition IDENT : list set_item :=
  [Range (chr "a") (chr "z"); Range (chr "0") (chr "9"); Item (chr "_")].

Definition PARAM : list set_item :=
  [Range (chr "a") (chr "z"); Range (chr "0") (chr "9"); Item (chr "=");
   Item (chr "?"); Item (chr "*"); Item (chr "_"); Item (chr "<");
   Item (chr ">")].

Definition RTYPE : list set_item :=
  [Range (chr "a") (chr "z"); Item (chr "["); Item (chr "]"); Item (chr "?");
   Item (chr ","); Item (chr "|"); Item (chr " ")].

Definition SPACE : regex := In [Category_space].

(** One parameter with what may follow it: white space, a comma, white
    space, each optional. *)
Definition PARAM_RE : regex :=
  Cat (plus (In PARAM))
      (Cat (star SPACE) (Cat (opt (Literal (chr ","))) (star SPACE))).

Definition PARAMS_RE : regex := star (Subpattern None PARAM_RE).

(** Everything before the return type. *)
Definition HEAD_RE : regex :=
  Cat (exactly 4 SPACE)
 (Cat (literals (str " - "))
 (Cat (Subpattern (Some 1) (plus (In IDENT)))
 (Cat (Literal (chr "("))
 (Cat (Subpattern (Some 2) PARAMS_RE)
      (literals (str ") -> ")))))).

(** The return type. *)
Definition RTYPE_RE : regex := Subpattern (Some 3) (plus (In RTYPE)).

Definition FUNCTION_RE : regex := Cat HEAD_RE RTYPE_RE.

(** The pattern is compiled with [re.I]. *)
Definition FUNCTION_RE_findall (text : pystr) : list item :=
  findall true FUNCTION_RE text.

(** ** Built-ins of the script: [repr], [str] of a tuple, [print] *)

Section Builtins.

(** [str.isprintable] for the characters above U+007E, a table of the Unicode
    database that the interpreter consults in [repr]. *)
Variable isprintable : codepoint -> bool.

Definition hexdigit (d : N) : codepoint :=
  (if d <? 10 then 48 + d else 87 + d)%N.

(** [width] hexadecimal digits of [ch], the most significant first. *)
Fixpoint hex (width : nat) (ch : N) : pystr :=
  match width with
  | 0 => []
  | S w => hex w (ch / 16)%N ++ [hexdigit (ch mod 16)%N]
  end.

Definition BACKSLASH : codepoint := 92%N.
Definition SQUOTE : codepoint := 39%N.
Definition DQUOTE : codepoint := 34%N.

(** One character of a [repr], inside the quotes [quote]. *)
Definition escape (quote ch : codepoint) : pystr :=
  (if (ch =? quote) || (ch =? BACKSLASH) then [BACKSLASH; ch]
   else if ch =? TAB then BACKSLASH :: str "t"
   else if ch =? LF then BACKSLASH :: str "n"
   else if ch =? CR then BACKSLASH :: str "r"
   else if (ch <? 32) || (ch =? 127) then BACKSLASH :: str "x" ++ hex 2 ch
   else if ch <? 127 then [ch]
   else if isprintable ch then [ch]
   else if ch <=? 255 then BACKSLASH :: str "x" ++ hex 2 ch
   else if ch <=? 65535 then BACKSLASH :: str "u" ++ hex 4 ch
   else BACKSLASH :: str "U" ++ hex 8 ch)%N.

(** Single quotes, unless the text has a single quote and no double quote. *)
Definition quote_of (s : pystr) : codepoint :=
  if mem SQUOTE s && negb (mem DQUOTE s) then DQUOTE else SQUOTE.

Definition repr (s : pystr) : pystr :=
  let q := quote_of s in q :: flat_map (escape q) s ++ [q].

Fixpoint join (sep : pystr) (l : list pystr) : pystr :=
  match l with
  | [] => []
  | [x] => x
  | x :: l' => x ++ sep ++ join sep l'
  end.

Definition repr_tuple (fields : list pystr) : pystr :=
  match fields with
  | [x] => str "(" ++ repr x ++ str ",)"
  | _ => str "(" ++ join (str ", ") (List.map repr fields) ++ str ")"
  end.

(** [str(x)] for what [findall] yields. *)
Definition to_str (x : item) : pystr :=
  match x with
  | Text s => s
  | Tuple fields => repr_tuple fields
  end.

(** ** The process: standard output, exceptions, [subprocess.run] *)

Inductive exception : Type :=
| FileNotFoundError
| PermissionError
| OSError (errno : Z).

Record CompletedProcess : Type := {
  args : list pystr;
  returncode : Z;
  stdout : pystr;
  stderr : pystr
}.

(** Statements write lines on the script's standard output and either
    complete or raise. *)
Definition io (A : Type) : Type := list pystr -> (exception + A) * list pystr.

Definition ret {A} (a : A) : io A := fun out => (inr a, out).

Definition raise {A} (e : exception) : io A := fun out => (inl e, out).

Definition bind {A B} (m : io A) (f : A -> io B) : io B :=
  fun out =>
    match m out with
    | (inl e, out') => (inl e, out')
    | (inr a, out') => f a out'
    end.

(** [print(x)]: the text of [x] and a line break.  The stream is taken to
    accept every character. *)
Definition print (x : item) : io unit :=
  fun out => (inr tt, out ++ [to_str x ++ [LF]]).

Fixpoint for_each {A} (l : list A) (body : A -> io unit) : io unit :=
  match l with
  | [] => ret tt
  | x :: l' => bind (body x) (fun _ => for_each l' body)
  end.

(** What the operating system does with a command line: the launch fails, or
    the child runs to its end and leaves an exit status and two streams. *)
Definition launcher : Type := list pystr -> exception + CompletedProcess.

(** [subprocess.run(argv, text=True, capture_output=True)]. *)
Definition subprocess_run (os : launcher) (argv : list pystr) : io CompletedProcess :=
  match os argv with
  | inl e => raise e
  | inr p => ret p
  end.

(** ** The script *)

Definition ARGV : list pystr :=
  [str "./target/debug/xan"; str "map"; str "--functions"].

Definition script (os : launcher) : io unit :=
  bind (subprocess_run os ARGV) (fun p =>
  let FUNCTIONS := stdout p in
  for_each (FUNCTION_RE_findall FUNCTIONS) print).

(** The lines printed by a run, and the exception that ended it, if any. *)
Definition printed (os : launcher) : list pystr := snd (script os []).

Definition uncaught (os : launcher) : option exception :=
  match fst (script os []) with
  | inl e => Some e
  | inr _ => None
  end.

(** A system on which the launch succeeds. *)
Definition completes (rc : Z) (out err : pystr) : launcher :=
  fun argv =>
    inr {| args := argv; returncode := rc; stdout := out; stderr := err |}.

(** A system on which the launch fails. *)
Definition fails (e : exception) : launcher := fun _ => inl e.

End Builtins.

(** ** What a pattern matches, without search order *)

Module Lang.

Section Declarative.

Variable icase : bool.

(** One character accepted by [p] is read; the groups are untouched. *)
Definition reads (p : codepoint -> bool) (a c : state) : Prop :=
  exists ch, rest a = ch :: rest c /\ p ch = true /\ caps a = caps c.

Fixpoint iter (R : state -> state -> Prop) (n : nat) (a c : state) : Prop :=
  match n with
  | 0 => a = c
  | S n' => exists b, R a b /\ iter R n' b c
  end.

(** The step [R], taken only when it reads something. *)
Definition advancing (R : state -> state -> Prop) (a b : state) : Prop :=
  R a b /\ length (rest b) < length (rest a).

Definition within (n lo : nat) (hi : option nat) : Prop :=
  match hi with
  | Some h => n <= h - lo
  | None => True
  end.

(** [matches r a c]: the pattern [r] can take the matcher from state [a] to
    state [c]. *)
Fixpoint matches (r : regex) (a c : state) : Prop :=
  match r with
  | Empty => a = c
  | Literal x => reads (literal_ok icase x) a c
  | In items => reads (in_set icase items) a c
  | Cat r1 r2 => exists b, matches r1 a b /\ matches r2 b c
  | Max_repeat lo hi r1 =>
      exists b n, iter (matches r1) lo a b /\ within n lo hi
                  /\ iter (advancing (matches r1)) n b c
  | Subpattern g r1 =>
      exists b, matches r1 a b
                /\ c = (rest b, mark g (consumed a b) (caps b))
  end.

End Declarative.

End Lang.

Import Lang.

(** * Vocabulary of the properties *)

(** ** Contracts between a matcher and a relation on states *)

Section Contracts.

Variable A : Type.

(** A matcher body that only succeeds along the relation [R]. *)
Definition sound_for (R : state -> state -> Prop)
  (body : cont A -> cont A) : Prop :=
  forall k a x, body k a = Some x -> exists c, R a c /\ k c = Some x.

(** A matcher body that succeeds whenever [R] leads to a state from which the
    continuation succeeds. *)
Definition complete_for (R : state -> state -> Prop)
  (body : cont A -> cont A) : Prop :=
  forall k a c, R a c -> k c <> None -> body k a <> None.

End Contracts.

Arguments sound_for : clear implicits.
Arguments complete_for : clear implicits.

(** ** Greedy runs *)

(** The longest prefix of characters accepted by [p], and what follows it. *)
Fixpoint run_of (p : codepoint -> bool) (s : pystr) : pystr :=
  match s with
  | ch :: s' => if p ch then ch :: run_of p s' else []
  | [] => []
  end.

Fixpoint after_run (p : codepoint -> bool) (s : pystr) : pystr :=
  match s with
  | ch :: s' => if p ch then after_run p s' else s
  | [] => []
  end.

(** ** The parts of [FUNCTION_RE], as text *)

Definition ident_char (ch : codepoint) : bool := in_set true IDENT ch.
Definition param_char (ch : codepoint) : bool := in_set true PARAM ch.
Definition rtype_char (ch : codepoint) : bool := in_set true RTYPE ch.

Definition COMMA : codepoint := chr ",".

(** The text between the parentheses: parameters, each a run of parameter
    characters followed by white space, at most one comma and white space. *)
Inductive param_list : pystr -> Prop :=
| params_nil : param_list []
| params_cons w sp1 cm sp2 ps :
    w <> [] -> forallb param_char w = true ->
    forallb is_space sp1 = true ->
    cm = [] \/ cm = [COMMA] ->
    forallb is_space sp2 = true ->
    param_list ps ->
    param_list (w ++ sp1 ++ cm ++ sp2 ++ ps).

Definition uncased (c : codepoint) : bool := (c <? 65)%N.

(** The text of an entry up to its return type. *)
Definition head_text (ws name ps : pystr) : pystr :=
  ws ++ str " - " ++ name ++ str "(" ++ ps ++ str ") -> ".

Definition well_formed_head (ws name ps : pystr) : Prop :=
  length ws = 4 /\ forallb is_space ws = true
  /\ name <> [] /\ forallb ident_char name = true
  /\ param_list ps.

Definition well_formed_rtype (rt : pystr) : Prop :=
  rt <> [] /\ forallb rtype_char rt = true.

(** ** One attempt of [FUNCTION_RE] *)

Definition RPAREN : codepoint := chr ")".
Definition LPAREN : codepoint := chr "(".

Definition not_rparen (ch : codepoint) : bool := negb (ch =? RPAREN)%N.

(** The groups of a match of [FUNCTION_RE]. *)
Definition groups_of (name ps rt : pystr) : captures :=
  [(3, rt); (2, ps); (1, name)].

(** [entry s ws name ps rt post]: the text [s] starts with a well-formed
    entry whose return type runs as far as it can, and [post] follows. *)
Definition entry (s ws name ps rt post : pystr) : Prop :=
  well_formed_head ws name ps /\ well_formed_rtype rt
  /\ s = head_text ws name ps ++ rt ++ post
  /\ run_of rtype_char post = [].

(** ** The scan of [findall], as a relation *)

(** The tuple [findall] builds from the groups of a match. *)
Definition triple_of (cs : captures) : item :=
  Tuple [group_text cs 1; group_text cs 2; group_text cs 3].

(** The pattern matches the prefix [m] of [s], and [x] is the tuple of the
    three groups of that match. *)
Definition matches_at (s m post : pystr) (x : item) : Prop :=
  s = m ++ post
  /\ exists cs, matches true FUNCTION_RE (s, []) (post, cs) /\ x = triple_of cs.

Definition no_match_at (s : pystr) : Prop :=
  forall m post x, ~ matches_at s m post x.

(** The match the search reports at a position.  The matches of this pattern
    at one position differ only in how far the return type runs, and the
    greedy repeat reports the longest. *)
Definition first_match (s m post : pystr) (x : item) : Prop :=
  matches_at s m post x
  /\ forall m' post' x', matches_at s m' post' x' -> length m' <= length m.

(** [Scan s l]: [l] lists, from left to right, the matches met when the text
    [s] is searched for the leftmost match, then searched again from the end
    of that match, and so on to the end of the text. *)
Inductive Scan : pystr -> list item -> Prop :=
| Scan_end s :
    (forall pre t, s = pre ++ t -> no_match_at t) ->
    Scan s []
| Scan_match pre m post x l :
    (forall p1 p2, pre = p1 ++ p2 -> p2 <> [] -> no_match_at (p2 ++ m ++ post)) ->
    first_match (m ++ post) m post x ->
    Scan post l ->
    Scan (pre ++ m ++ post) (x :: l).

(** ** Printed lines *)

(** The line [print] writes for one item. *)
Definition line_of (isprintable : codepoint -> bool) (x : item) : pystr :=
  to_str isprintable x ++ [LF].

(** A printed line: text without a line break, then one line break. *)
Definition one_line (l : pystr) : Prop :=
  exists body, l = body ++ [LF] /\ ~ List.In LF body.

Definition is_triple (x : item) : Prop :=
  exists name ps rt, x = Tuple [name; ps; rt].

(** ** Sample texts and tests on texts *)

(** A table for runs whose output is ASCII, where [repr] never consults it. *)
Definition no_table : codepoint -> bool := fun _ => false.

Definition trim_line : pystr := str "    - trim(col) -> string".
Definition concat_line : pystr := str "    - concat(col1, col2, *) -> string".
Definition name_line : pystr := str "    - name() -> type".

(** The lines of a text, cut at the line breaks. *)
Fixpoint split_lines (s : pystr) : list pystr :=
  match s with
  | [] => [[]]
  | ch :: s' =>
      if (ch =? LF)%N then [] :: split_lines s'
      else match split_lines s' with
           | l :: ls => (ch :: l) :: ls
           | [] => [[ch]]
           end
  end.

Definition SP : codepoint := chr " ".

Definition four_space_indent (l : pystr) : bool :=
  match l with
  | a :: b :: c :: d :: _ => ((a =? SP) && (b =? SP) && (c =? SP) && (d =? SP))%N
  | _ => false
  end.

Definition tab_line : pystr := [TAB; TAB; TAB; TAB] ++ str " - f(a) -> int".
Definition inner_line : pystr := str "see" ++ [TAB; SP; TAB; SP] ++ str " - f(a) -> int".

Definition wordy_line : pystr := str "    - f(a) -> int or something else".

Definition DASH : codepoint := chr "-".

(** The literal [ - ] at the head of a text. *)
Definition dash_here (s : pystr) : bool :=
  match s with
  | a :: b :: c :: _ => ((a =? SP) && (b =? DASH) && (c =? SP))%N
  | _ => false
  end.

(** Four white-space characters and the literal [ - ] at the head of a text. *)
Definition mark_here (s : pystr) : bool :=
  match s with
  | a :: b :: c :: d :: s' =>
      is_space a && is_space b && is_space c && is_space d && dash_here s'
  | _ => false
  end.

Fixpoint has_mark (s : pystr) : bool :=
  match s with
  | [] => false
  | _ :: s' => mark_here s || has_mark s'
  end.

Fixpoint has_dash (s : pystr) : bool :=
  match s with
  | [] => false
  | _ :: s' => dash_here s || has_dash s'
  end.

Definition tabbed_trim_line : pystr :=
  [TAB; TAB; TAB; TAB] ++ str " - trim(col) -> string".

(** ** Texts made of entry lines and other lines *)

(** [re.fullmatch], as a test. *)
Definition fullmatch (icase : bool) (r : regex) (s : pystr) : bool :=
  match sre_match icase r
          (fun st => match rest st with [] => Some tt | _ :: _ => None end)
          (s, []) with
  | Some _ => true
  | None => false
  end.

(** A line of the captured text: an entry, given by its name, its parameter
    list and its return type, or any other line. *)
Inductive line : Type :=
| Entry (name ps rt : pystr)
| Other (l : pystr).

(** An entry line: four spaces, [ - ], the name, the parameter list between
    parentheses, [ -> ], the return type. *)
Definition entry_text (name ps rt : pystr) : pystr :=
  head_text (str "    ") name ps ++ rt.

Definition line_text (l : line) : pystr :=
  match l with
  | Entry name ps rt => entry_text name ps rt
  | Other l => l
  end.

(** The text whose lines are [ls], each ended by a line break. *)
Definition text_of (ls : list line) : pystr :=
  flat_map (fun l => line_text l ++ [LF]) ls.

Definition tuples_of (ls : list line) : list item :=
  flat_map (fun l => match l with
                     | Entry name ps rt => [Tuple [name; ps; rt]]
                     | Other _ => []
                     end) ls.

Definition is_entry (l : line) : bool :=
  match l with Entry _ _ _ => true | Other _ => false end.

Definition nonempty (s : pystr) : bool :=
  match s with [] => false | _ :: _ => true end.

(** An entry is well formed when its name is a non-empty run of name
    characters, its parameter list is one the pattern accepts and its return
    type is a non-empty run of return-type characters.  Another line is
    harmless when the literal [ - ] occurs nowhere in it. *)
Definition well_formed (l : line) : bool :=
  match l with
  | Entry name ps rt =>
      nonempty name && forallb ident_char name
      && fullmatch true PARAMS_RE ps
      && nonempty rt && forallb rtype_char rt
  | Other l => negb (has_dash l)
  end.

Definition note_line : pystr := str "note:     - f(a) -> int".

Definition sample_lines : list line :=
  [Other (str "## Strings");
   Entry (str "trim") (str "col") (str "string");
   Other (str "        Trim white space.");
   Entry (str "concat") (str "col1, col2, *") (str "string")].

(** ** Entries in a text, indentation marks, renamings *)

(** The tuple [x] is read off the text: somewhere in the text stands a
    well-formed entry whose name, parameter list and return type are the
    fields of [x], the return type running as far as it can. *)
Definition read_off (text : pystr) (x : item) : Prop :=
  exists pre ws name ps rt post,
    x = Tuple [name; ps; rt]
    /\ text = pre ++ head_text ws name ps ++ rt ++ post
    /\ well_formed_head ws name ps /\ well_formed_rtype rt
    /\ run_of rtype_char post = [].

(** Somewhere in the text stands a well-formed entry. *)
Definition contains_entry (text : pystr) : Prop :=
  exists pre ws name ps rt post,
    text = pre ++ head_text ws name ps ++ rt ++ post
    /\ well_formed_head ws name ps /\ well_formed_rtype rt.

(** The number of places of a text where four white-space characters are
    followed by the literal [ - ]. *)
Fixpoint count_marks (s : pystr) : nat :=
  match s with
  | [] => 0
  | _ :: s' => (if mark_here s then 1 else 0) + count_marks s'
  end.

(** ASCII letters moved to capitals, and to small letters. *)
Definition upper_ascii (ch : codepoint) : codepoint :=
  (if (97 <=? ch) && (ch <=? 122) then ch - 32 else ch)%N.

Definition lower_ascii (ch : codepoint) : codepoint :=
  (if (65 <=? ch) && (ch <=? 90) then ch + 32 else ch)%N.

(** A renaming of characters, carried through groups, states and items. *)
Definition map_caps (f : codepoint -> codepoint) (cs : captures) : captures :=
  List.map (fun g => (fst g, List.map f (snd g))) cs.

Definition map_state (f : codepoint -> codepoint) (st : state) : state :=
  (List.map f (rest st), map_caps f (caps st)).

Definition map_item (f : codepoint -> codepoint) (x : item) : item :=
  match x with
  | Text s => Text (List.map f s)
  | Tuple fields => Tuple (List.map (List.map f) fields)
  end.

(** Two continuations that agree up to a renaming of the characters, the
    results being carried over by [g]; and two matcher bodies that keep such
    continuations in agreement. *)
Definition renamed (f : codepoint -> codepoint) (A B : Type) (g : A -> B)
  (k : cont A) (k' : cont B) : Prop :=
  forall st, k' (map_state f st) = option_map g (k st).

Definition body_renamed (f : codepoint -> codepoint) (A B : Type) (g : A -> B)
  (body : cont A -> cont A) (body' : cont B -> cont B) : Prop :=
  forall k k', renamed f g k k' -> renamed f g (body k) (body' k').

(** ** Parameter lists read from left to right *)

(** One pass over a parameter list: parameter characters, white space and
    commas only, and no comma while [after_comma] holds, that is before a
    parameter character has followed the comma read last. *)
Fixpoint params_pass (after_comma : bool) (s : pystr) : bool :=
  match s with
  | [] => true
  | ch :: s' =>
      if param_char ch then params_pass false s'
      else if is_space ch then params_pass after_comma s'
      else if (ch =? COMMA)%N then negb after_comma && params_pass true s'
      else false
  end.

(** A parameter list is empty or starts with a parameter character, and
    passes. *)
Definition params_ok (ps : pystr) : bool :=
  match ps with
  | [] => true
  | ch :: _ => param_char ch && params_pass false ps
  end.

(** ** Quoted fields *)

Definition quoted (isprintable : codepoint -> bool) (s : pystr) : pystr :=
  SQUOTE :: flat_map (escape isprintable SQUOTE) s ++ [SQUOTE].

(** The characters a parameter list is made of. *)
Definition params_char (ch : codepoint) : bool :=
  param_char ch || is_space ch || (ch =? COMMA)%N.

(** * Proofs *)

(** ** The matcher against the declarative reading *)

Section Soundness.

Variable A : Type.
Variable icase : bool.

Lemma repeat_min_sound R body :
  sound_for A R body ->
  forall n, sound_for A (iter R n) (fun k => repeat_min body n k).
Proof.
  intros Hb n. induction n as [|n IH]; intros k a x H; simpl in *.
  - exists a. split; [reflexivity | exact H].
  - apply Hb in H. destruct H as (b & Hab & H).
    apply IH in H. destruct H as (c & Hbc & H).
    exists c. split; [exists b; split; assumption | exact H].
Qed.

Lemma repeat_greedy_sound R body :
  sound_for A R body ->
  forall n k a x, repeat_greedy body n k a = Some x ->
    exists c m, m <= n /\ iter (advancing R) m a c /\ k c = Some x.
Proof.
  intros Hb n. induction n as [|n IH]; intros k a x H; simpl in H.
  - exists a, 0. repeat split; [lia | exact H].
  - destruct (body _ a) as [y|] eqn:E.
    + injection H as ->. apply Hb in E. destruct E as (b & Hab & E).
      destruct (length (rest b) <? length (rest a)) eqn:Hlt; [|discriminate].
      apply Nat.ltb_lt in Hlt.
      apply IH in E. destruct E as (c & m & Hm & Hbc & E).
      exists c, (S m). repeat split; [lia | | exact E].
      exists b. split; [split; assumption | exact Hbc].
    + exists a, 0. repeat split; [lia | exact H].
Qed.

Lemma repeat_min_complete R body :
  complete_for A R body ->
  forall n, complete_for A (iter R n) (fun k => repeat_min body n k).
Proof.
  intros Hb n. induction n as [|n IH]; intros k a c H Hk; simpl in *.
  - subst c. exact Hk.
  - destruct H as (b & Hab & Hbc).
    apply (Hb _ _ _ Hab). apply (IH _ _ _ Hbc Hk).
Qed.

Lemma repeat_greedy_complete R body :
  complete_for A R body ->
  forall n m k a c, m <= n -> iter (advancing R) m a c -> k c <> None ->
    repeat_greedy body n k a <> None.
Proof.
  intros Hb n. induction n as [|n IH]; intros m k a c Hm H Hk.
  - assert (m = 0) by lia. subst m. simpl in *. subst c. exact Hk.
  - simpl. destruct (body _ a) as [y|] eqn:E; [discriminate|].
    destruct m as [|m]; simpl in H.
    + subst c. exact Hk.
    + exfalso. destruct H as (b & (Hab & Hlt) & Hbc).
      revert E. apply (Hb _ _ _ Hab).
      apply Nat.ltb_lt in Hlt. rewrite Hlt.
      apply (IH m k b c); [lia | exact Hbc | exact Hk].
Qed.

(** Steps that all read something cannot outnumber the characters left. *)
Lemma iter_advancing_bound R n a c :
  iter (advancing R) n a c -> n + length (rest c) <= length (rest a).
Proof.
  revert a. induction n as [|n IH]; intros a H; simpl in H.
  - subst c. lia.
  - destruct H as (b & (_ & Hlt) & Hbc). apply IH in Hbc. lia.
Qed.

Lemma state_eta (c : state) : (rest c, caps c) = c.
Proof. destruct c; reflexivity. Qed.

(** Whatever the matcher returns comes from a state the pattern can reach. *)
Theorem sre_match_sound r : sound_for A (matches icase r) (sre_match icase r).
Proof.
  induction r as [| x | items | r1 IH1 r2 IH2 | lo hi r1 IH1 | g r1 IH1];
    intros k a x' H; simpl in H.
  - exists a. split; [reflexivity | exact H].
  - destruct (rest a) as [|ch s] eqn:Ea; [discriminate|].
    destruct (literal_ok icase x ch) eqn:Ec; [|discriminate].
    exists (s, caps a). split; [|exact H].
    exists ch. repeat split; assumption.
  - destruct (rest a) as [|ch s] eqn:Ea; [discriminate|].
    destruct (in_set icase items ch) eqn:Ec; [|discriminate].
    exists (s, caps a). split; [|exact H].
    exists ch. repeat split; assumption.
  - apply IH1 in H. destruct H as (b & Hab & H).
    apply IH2 in H. destruct H as (c & Hbc & H).
    exists c. split; [exists b; split; assumption | exact H].
  - apply (repeat_min_sound IH1) in H. destruct H as (b & Hab & H).
    apply (repeat_greedy_sound IH1) in H. destruct H as (c & m & Hm & Hbc & H).
    exists c. split; [|exact H]. exists b, m. repeat split; try assumption.
    destruct hi as [h|]; simpl in *; [exact Hm | exact I].
  - apply IH1 in H. destruct H as (b & Hab & H).
    exists (rest b, mark g (consumed a b) (caps b)).
    split; [exists b; split; [assumption | reflexivity] | exact H].
Qed.

(** The matcher finds a result whenever the pattern can reach a state that
    the continuation accepts. *)
Theorem sre_match_complete r : complete_for A (matches icase r) (sre_match icase r).
Proof.
  induction r as [| x | items | r1 IH1 r2 IH2 | lo hi r1 IH1 | g r1 IH1];
    intros k a c H Hk; simpl in *.
  - subst c. exact Hk.
  - destruct H as (ch & Ha & Hc & Hcs). rewrite Ha, Hc, Hcs, state_eta. exact Hk.
  - destruct H as (ch & Ha & Hc & Hcs). rewrite Ha, Hc, Hcs, state_eta. exact Hk.
  - destruct H as (b & Hab & Hbc).
    apply (IH1 _ _ _ Hab). apply (IH2 _ _ _ Hbc Hk).
  - destruct H as (b & n & Hab & Hn & Hbc).
    apply (repeat_min_complete IH1 lo _ _ _ Hab).
    apply (repeat_greedy_complete IH1) with (m := n) (c := c);
      [| exact Hbc | exact Hk].
    destruct hi as [h|]; simpl in *; [exact Hn|].
    apply iter_advancing_bound in Hbc. lia.
  - destruct H as (b & Hab & ->).
    apply (IH1 _ _ _ Hab). exact Hk.
Qed.

End Soundness.

(** ** The characters the pattern accepts *)

Lemma space_set_ok ch : in_set true [Category_space] ch = is_space ch.
Proof.
  unfold in_set, in_item, existsb. rewrite orb_false_r.
  unfold lower.
  destruct ((65 <=? ch) && (ch <=? 90))%N eqn:E1.
  - apply andb_prop in E1. destruct E1 as [H1 H2].
    apply N.leb_le in H1; apply N.leb_le in H2.
    unfold is_space.
    repeat match goal with
    | |- context [(?a <=? ?b)%N] => destruct (N.leb_spec a b); try lia
    | |- context [(?a =? ?b)%N] => destruct (N.eqb_spec a b); try lia
    end; reflexivity.
  - destruct (N.eqb_spec ch 304) as [->|]; [reflexivity|].
    destruct (N.eqb_spec ch 8490) as [->|]; reflexivity.
Qed.

Lemma literal_ok_uncased c ch :
  (c < 65)%N -> literal_ok true c ch = true <-> ch = c.
Proof.
  intros Hc. unfold literal_ok, folded, mem, casefix, lower.
  assert (E : ((65 <=? c) && (c <=? 90))%N = false).
  { destruct (N.leb_spec 65 c); [lia | reflexivity]. }
  rewrite E.
  destruct (N.eqb_spec c 304); [lia|].
  destruct (N.eqb_spec c 8490); [lia|].
  destruct (N.eqb_spec c 105); [lia|].
  destruct (N.eqb_spec c 115); [lia|].
  simpl. rewrite orb_false_r.
  destruct ((65 <=? ch) && (ch <=? 90))%N eqn:E1.
  - apply andb_prop in E1. destruct E1 as [H1 H2].
    apply N.leb_le in H1; apply N.leb_le in H2.
    rewrite N.eqb_eq. lia.
  - destruct (N.eqb_spec ch 304); [rewrite N.eqb_eq; lia|].
    destruct (N.eqb_spec ch 8490); [rewrite N.eqb_eq; lia|].
    rewrite N.eqb_eq. tauto.
Qed.

(** ** Repeats of a single character *)

Section Runs.

Variable p : codepoint -> bool.

Lemma advancing_reads a b : advancing (reads p) a b <-> reads p a b.
Proof.
  split; [intros [H _]; exact H|].
  intros H. split; [exact H|].
  destruct H as (ch & E & _). rewrite E. simpl. lia.
Qed.

Lemma iter_reads n a c :
  iter (reads p) n a c <->
  exists w, length w = n /\ forallb p w = true
            /\ rest a = w ++ rest c /\ caps a = caps c.
Proof.
  revert a. induction n as [|n IH]; intros a; simpl.
  - split.
    + intros ->. exists []. repeat split.
    + intros (w & Hw & _ & Hr & Hc).
      destruct w; [|discriminate]. simpl in Hr.
      rewrite <- (state_eta a), <- (state_eta c). congruence.
  - split.
    + intros (b & (ch & Ha & Hp & Hc) & Hbc).
      apply IH in Hbc. destruct Hbc as (w & Hw & Hall & Hr & Hcs).
      exists (ch :: w). simpl. rewrite Hp, Hall, Hw, Ha, Hr.
      repeat split. congruence.
    + intros (w & Hw & Hall & Hr & Hc).
      destruct w as [|ch w]; [discriminate|]. simpl in *.
      apply andb_prop in Hall. destruct Hall as [Hp Hall].
      exists (w ++ rest c, caps a). split.
      * exists ch. repeat split; assumption.
      * apply IH. exists w. repeat split; try assumption. lia.
Qed.

Lemma iter_advancing_reads n a c :
  iter (advancing (reads p)) n a c <-> iter (reads p) n a c.
Proof.
  revert a. induction n as [|n IH]; intros a; simpl; [tauto|].
  split; intros (b & Hab & Hbc); exists b.
  - split; [apply (proj1 (advancing_reads a b) Hab) | apply IH; exact Hbc].
  - split; [apply (proj2 (advancing_reads a b) Hab) | apply IH; exact Hbc].
Qed.

(** A greedy repeat of one character reads a run of accepted characters
    whose length lies between the bounds. *)
Lemma repeat_reads lo hi a c :
  (exists b n, iter (reads p) lo a b /\ within n lo hi
               /\ iter (advancing (reads p)) n b c) <->
  exists w, lo <= length w /\ within (length w - lo) lo hi
            /\ forallb p w = true /\ rest a = w ++ rest c /\ caps a = caps c.
Proof.
  split.
  - intros (b & n & Hab & Hn & Hbc).
    apply iter_advancing_reads in Hbc.
    apply iter_reads in Hab. apply iter_reads in Hbc.
    destruct Hab as (w1 & L1 & A1 & R1 & C1).
    destruct Hbc as (w2 & L2 & A2 & R2 & C2).
    exists (w1 ++ w2). rewrite length_app, forallb_app, A1, A2, <- app_assoc.
    repeat split; try congruence; try lia.
    replace (length w1 + length w2 - lo) with n by lia. exact Hn.
  - intros (w & Hlo & Hn & Hall & Hr & Hc).
    rewrite <- (firstn_skipn lo w), forallb_app in Hall.
    apply andb_prop in Hall. destruct Hall as [A1 A2].
    exists (skipn lo w ++ rest c, caps a), (length w - lo).
    split; [|split; [exact Hn|]].
    + apply iter_reads. exists (firstn lo w). simpl.
      rewrite length_firstn, app_assoc, firstn_skipn.
      repeat split; try assumption. lia.
    + apply iter_advancing_reads, iter_reads. exists (skipn lo w). simpl.
      rewrite length_skipn. repeat split; assumption.
Qed.

End Runs.

(** ** The parts of [FUNCTION_RE], read declaratively *)

Lemma forallb_ext (p q : codepoint -> bool) (l : pystr) :
  (forall ch, p ch = q ch) -> forallb p l = forallb q l.
Proof.
  intros E. induction l as [|ch l IH]; simpl; [reflexivity|].
  rewrite E, IH. reflexivity.
Qed.

Lemma consumed_app (a b : state) w : rest a = w ++ rest b -> consumed a b = w.
Proof.
  intros E. unfold consumed. rewrite E, length_app.
  replace (length w + length (rest b) - length (rest b)) with (length w) by lia.
  rewrite firstn_app, firstn_all, Nat.sub_diag. simpl. apply app_nil_r.
Qed.

Lemma same_state (a c : state) : rest a = rest c -> caps a = caps c -> a = c.
Proof. destruct a, c; simpl; congruence. Qed.

Lemma matches_literal x a c :
  uncased x = true ->
  matches true (Literal x) a c <-> rest a = x :: rest c /\ caps a = caps c.
Proof.
  intros Hx. apply N.ltb_lt in Hx. simpl. split.
  - intros (ch & Ha & Hp & Hc). apply literal_ok_uncased in Hp; [|exact Hx].
    subst ch. split; assumption.
  - intros [Ha Hc]. exists x. repeat split; try assumption.
    apply literal_ok_uncased; [exact Hx | reflexivity].
Qed.

Lemma matches_literals l a c :
  forallb uncased l = true ->
  matches true (literals l) a c <-> rest a = l ++ rest c /\ caps a = caps c.
Proof.
  revert a. induction l as [|x l IH]; intros a Hl; simpl in Hl |- *.
  - split; [intros ->; split; reflexivity | intros [? ?]; apply same_state; assumption].
  - apply andb_prop in Hl. destruct Hl as [Hx Hl]. split.
    + intros (b & Hab & Hbc). apply matches_literal in Hab; [|exact Hx].
      apply IH in Hbc; [|exact Hl]. destruct Hab as [-> ->], Hbc as [-> ->].
      split; reflexivity.
    + intros [Ha Hc]. exists (l ++ rest c, caps a). split.
      * apply matches_literal; [exact Hx | split; [exact Ha | reflexivity]].
      * apply IH; [exact Hl | split; [reflexivity | exact Hc]].
Qed.

Lemma matches_set_repeat lo hi items a c :
  matches true (Max_repeat lo hi (In items)) a c <->
  exists w, lo <= length w /\ within (length w - lo) lo hi
            /\ forallb (in_set true items) w = true
            /\ rest a = w ++ rest c /\ caps a = caps c.
Proof. apply repeat_reads. Qed.

Lemma matches_literal_repeat lo hi x a c :
  matches true (Max_repeat lo hi (Literal x)) a c <->
  exists w, lo <= length w /\ within (length w - lo) lo hi
            /\ forallb (literal_ok true x) w = true
            /\ rest a = w ++ rest c /\ caps a = caps c.
Proof. apply repeat_reads. Qed.

Lemma matches_spaces a c :
  matches true (star SPACE) a c <->
  exists w, forallb is_space w = true /\ rest a = w ++ rest c /\ caps a = caps c.
Proof.
  unfold star, SPACE. rewrite matches_set_repeat. split.
  - intros (w & _ & _ & Hw & H). exists w. split; [|exact H].
    rewrite <- (forallb_ext _ _ w space_set_ok). exact Hw.
  - intros (w & Hw & H). exists w. repeat split; try apply H; try lia.
    rewrite (forallb_ext _ _ w space_set_ok). exact Hw.
Qed.

Lemma matches_opt_comma a c :
  matches true (opt (Literal COMMA)) a c <->
  exists cm, (cm = [] \/ cm = [COMMA]) /\ rest a = cm ++ rest c /\ caps a = caps c.
Proof.
  unfold opt. rewrite matches_literal_repeat. split.
  - intros (w & _ & Hn & Hw & H). exists w. split; [|exact H].
    simpl in Hn. destruct w as [|ch [|? ?]]; simpl in *; [left; reflexivity | | lia].
    right. rewrite andb_true_r in Hw.
    apply literal_ok_uncased in Hw; [subst ch; reflexivity | reflexivity].
  - intros (cm & Hcm & H). exists cm. destruct Hcm as [-> | ->]; simpl;
      repeat split; try apply H; lia.
Qed.

(** One parameter and its separator. *)
Lemma matches_param a c :
  matches true PARAM_RE a c <->
  exists w sp1 cm sp2,
    w <> [] /\ forallb param_char w = true /\ forallb is_space sp1 = true
    /\ (cm = [] \/ cm = [COMMA]) /\ forallb is_space sp2 = true
    /\ rest a = w ++ sp1 ++ cm ++ sp2 ++ rest c /\ caps a = caps c.
Proof.
  unfold PARAM_RE. split.
  - intros (b1 & H1 & b2 & H2 & b3 & H3 & H4).
    apply matches_set_repeat in H1. apply matches_spaces in H2.
    apply matches_opt_comma in H3. apply matches_spaces in H4.
    destruct H1 as (w & Lw & _ & Hw & R1 & C1).
    destruct H2 as (sp1 & Hs1 & R2 & C2).
    destruct H3 as (cm & Hcm & R3 & C3).
    destruct H4 as (sp2 & Hs2 & R4 & C4).
    exists w, sp1, cm, sp2. repeat split; try assumption; try congruence.
    intros ->. simpl in Lw. lia.
  - intros (w & sp1 & cm & sp2 & Nw & Hw & Hs1 & Hcm & Hs2 & R & C).
    exists (sp1 ++ cm ++ sp2 ++ rest c, caps a). split.
    { apply matches_set_repeat. exists w. repeat split; try assumption.
      destruct w; [contradiction | simpl; lia]. }
    exists (cm ++ sp2 ++ rest c, caps a). split.
    { apply matches_spaces. exists sp1. repeat split; assumption. }
    exists (sp2 ++ rest c, caps a). split.
    { apply matches_opt_comma. exists cm. repeat split; assumption. }
    apply matches_spaces. exists sp2. repeat split; assumption.
Qed.

Lemma matches_group_none r a c :
  matches true (Subpattern None r) a c <-> matches true r a c.
Proof.
  simpl. split.
  - intros (b & H & ->). rewrite state_eta. exact H.
  - intros H. exists c. split; [exact H | symmetry; apply state_eta].
Qed.

Lemma iter_params n a c :
  iter (advancing (matches true (Subpattern None PARAM_RE))) n a c ->
  exists ps, param_list ps /\ rest a = ps ++ rest c /\ caps a = caps c.
Proof.
  revert a. induction n as [|n IH]; intros a H; cbn [iter] in H.
  - subst c. exists []. repeat split. constructor.
  - destruct H as (b & (Hab & _) & Hbc).
    apply matches_group_none, matches_param in Hab.
    destruct Hab as (w & sp1 & cm & sp2 & Nw & Hw & Hs1 & Hcm & Hs2 & R & C).
    apply IH in Hbc. destruct Hbc as (ps & Hps & R' & C').
    exists (w ++ sp1 ++ cm ++ sp2 ++ ps). split; [constructor; assumption|].
    rewrite R, R', C, C'. repeat rewrite <- app_assoc. split; reflexivity.
Qed.

Lemma params_iter ps :
  param_list ps ->
  forall t cs, exists n,
    iter (advancing (matches true (Subpattern None PARAM_RE))) n (ps ++ t, cs) (t, cs).
Proof.
  induction 1 as [|w sp1 cm sp2 ps Nw Hw Hs1 Hcm Hs2 Hps IH]; intros t cs.
  - exists 0. reflexivity.
  - destruct (IH t cs) as (n & Hn). exists (S n), (ps ++ t, cs). split; [|exact Hn].
    split.
    + apply matches_group_none, matches_param.
      exists w, sp1, cm, sp2. repeat split; try assumption.
      simpl. repeat rewrite <- app_assoc. reflexivity.
    + simpl. repeat rewrite length_app.
      destruct w; [contradiction | simpl; lia].
Qed.

Lemma matches_params a c :
  matches true PARAMS_RE a c <->
  exists ps, param_list ps /\ rest a = ps ++ rest c /\ caps a = caps c.
Proof.
  unfold PARAMS_RE, star. split.
  - intros (b & n & Hab & _ & Hbc). simpl in Hab. subst b.
    apply iter_params in Hbc. exact Hbc.
  - intros (ps & Hps & R & C).
    destruct (params_iter Hps (rest c) (caps c)) as (n & Hn).
    exists a, n. repeat split.
    rewrite <- (state_eta a), R, C. rewrite state_eta in Hn. exact Hn.
Qed.

(** *** The whole pattern *)

Lemma matches_cat icase r1 r2 a c :
  matches icase (Cat r1 r2) a c <->
  exists b, matches icase r1 a b /\ matches icase r2 b c.
Proof. reflexivity. Qed.

Lemma matches_group_some icase i r a c :
  matches icase (Subpattern (Some i) r) a c <->
  exists b, matches icase r a b
            /\ c = (rest b, (i, consumed a b) :: caps b).
Proof. reflexivity. Qed.

Lemma matches_indent a c :
  matches true (exactly 4 SPACE) a c <->
  exists ws, length ws = 4 /\ forallb is_space ws = true
             /\ rest a = ws ++ rest c /\ caps a = caps c.
Proof.
  unfold exactly, SPACE. rewrite matches_set_repeat. split.
  - intros (w & Hlo & Hhi & Hw & H). exists w. simpl in Hhi.
    split; [lia|]. split; [|exact H].
    rewrite <- (forallb_ext _ _ w space_set_ok). exact Hw.
  - intros (w & Hl & Hw & H). exists w. simpl.
    repeat split; try apply H; try lia.
    rewrite (forallb_ext _ _ w space_set_ok). exact Hw.
Qed.

Lemma matches_run items a c :
  matches true (plus (In items)) a c <->
  exists w, w <> [] /\ forallb (in_set true items) w = true
            /\ rest a = w ++ rest c /\ caps a = caps c.
Proof.
  unfold plus. rewrite matches_set_repeat. split.
  - intros (w & Hlo & _ & H). exists w. split; [|exact H].
    intros ->. simpl in Hlo. lia.
  - intros (w & Nw & H). exists w. repeat split; try apply H.
    destruct w; [contradiction | simpl; lia].
Qed.

Lemma matches_head a b :
  matches true HEAD_RE a b <->
  exists ws name ps,
    well_formed_head ws name ps
    /\ rest a = head_text ws name ps ++ rest b
    /\ caps b = (2, ps) :: (1, name) :: caps a.
Proof.
  unfold HEAD_RE, head_text. split.
  - intros H.
    apply matches_cat in H. destruct H as (b1 & H1 & H).
    apply matches_cat in H. destruct H as (b2 & H2 & H).
    apply matches_cat in H. destruct H as (b3 & H3 & H).
    apply matches_cat in H. destruct H as (b4 & H4 & H).
    apply matches_cat in H. destruct H as (b5 & H5 & H6).
    apply matches_indent in H1. destruct H1 as (ws & Lws & Hws & R1 & C1).
    apply matches_literals in H2; [|reflexivity]. destruct H2 as [R2 C2].
    apply matches_group_some in H3. destruct H3 as (b3' & H3 & E3).
    apply matches_run in H3. destruct H3 as (name & Nn & Hn & R3 & C3).
    rewrite (consumed_app _ _ _ R3) in E3. subst b3.
    apply matches_literal in H4; [|reflexivity]. destruct H4 as [R4 C4].
    apply matches_group_some in H5. destruct H5 as (b5' & H5 & E5).
    apply matches_params in H5. destruct H5 as (ps & Hps & R5 & C5).
    rewrite (consumed_app _ _ _ R5) in E5. subst b5.
    apply matches_literals in H6; [|reflexivity]. destruct H6 as [R6 C6].
    simpl in *.
    exists ws, name, ps. split; [repeat split; assumption|].
    split.
    + rewrite R1, R2, R3, R4, R5, R6. simpl.
      repeat (rewrite <- app_assoc; simpl). reflexivity.
    + rewrite <- C6, <- C5, <- C4, <- C3. congruence.
  - intros (ws & name & ps & (Lws & Hws & Nn & Hn & Hps) & R & C).
    set (t5 := str ") -> " ++ rest b).
    set (t4 := ps ++ t5).
    set (t3 := str "(" ++ t4).
    set (t2 := name ++ t3).
    set (t1 := str " - " ++ t2).
    assert (R' : rest a = ws ++ t1).
    { rewrite R. unfold t1, t2, t3, t4, t5. repeat rewrite <- app_assoc. reflexivity. }
    exists (t1, caps a). split.
    { apply matches_indent. exists ws. repeat split; assumption. }
    exists (t2, caps a). split.
    { apply matches_literals; [reflexivity | split; reflexivity]. }
    exists (t3, (1, name) :: caps a). split.
    { apply matches_group_some. exists (t3, caps a). split.
      - apply matches_run. exists name. repeat split; assumption.
      - rewrite (consumed_app (t2, caps a) (t3, caps a) name eq_refl). reflexivity. }
    exists (t4, (1, name) :: caps a). split.
    { apply matches_literal; [reflexivity | split; reflexivity]. }
    exists (t5, (2, ps) :: (1, name) :: caps a). split.
    { apply matches_group_some. exists (t5, (1, name) :: caps a). split.
      - apply matches_params. exists ps. repeat split. exact Hps.
      - rewrite (consumed_app (t4, _) (t5, _) ps eq_refl). reflexivity. }
    apply matches_literals; [reflexivity|]. split; [reflexivity|].
    simpl. symmetry. exact C.
Qed.

(** A match of the pattern, read as text: four white-space characters, the
    literal [ - ], a name, a parenthesised parameter list, the literal
    [ -> ] and a return type, the three groups being the name, the parameter
    list and the return type. *)
Theorem matches_function a c :
  matches true FUNCTION_RE a c <->
  exists ws name ps rt,
    well_formed_head ws name ps /\ well_formed_rtype rt
    /\ rest a = head_text ws name ps ++ rt ++ rest c
    /\ caps c = (3, rt) :: (2, ps) :: (1, name) :: caps a.
Proof.
  unfold FUNCTION_RE. rewrite matches_cat. split.
  - intros (b & Hh & Ht).
    apply matches_head in Hh. destruct Hh as (ws & name & ps & Hwf & R & C).
    unfold RTYPE_RE in Ht. apply matches_group_some in Ht. destruct Ht as (b' & Ht & E).
    apply matches_run in Ht. destruct Ht as (rt & Nr & Hr & R' & C').
    rewrite (consumed_app _ _ _ R') in E. subst c. simpl.
    exists ws, name, ps, rt. repeat split; try apply Hwf; try assumption.
    + rewrite R, R'. reflexivity.
    + congruence.
  - intros (ws & name & ps & rt & Hwf & (Nr & Hr) & R & C).
    exists (rt ++ rest c, (2, ps) :: (1, name) :: caps a). split.
    + apply matches_head. exists ws, name, ps. repeat split; try apply Hwf.
      exact R.
    + unfold RTYPE_RE. apply matches_group_some.
      exists (rest c, (2, ps) :: (1, name) :: caps a). split.
      * apply matches_run. exists rt. repeat split; assumption.
      * rewrite (consumed_app (rt ++ rest c, _) (rest c, _) rt eq_refl).
        simpl. rewrite <- C. symmetry. apply state_eta.
Qed.

(** ** Greedy runs *)

Section Greedy.

Variable p : codepoint -> bool.

Lemma run_split s : s = run_of p s ++ after_run p s.
Proof.
  induction s as [|ch s IH]; simpl; [reflexivity|].
  destruct (p ch); simpl; [f_equal; exact IH | reflexivity].
Qed.

Lemma run_of_accepted s : forallb p (run_of p s) = true.
Proof.
  induction s as [|ch s IH]; simpl; [reflexivity|].
  destruct (p ch) eqn:E; simpl; [rewrite E; exact IH | reflexivity].
Qed.

Lemma run_of_after_run s : run_of p (after_run p s) = [].
Proof.
  induction s as [|ch s IH]; simpl; [reflexivity|].
  destruct (p ch) eqn:E; simpl; [exact IH | rewrite E; reflexivity].
Qed.

Lemma run_of_app w t : forallb p w = true -> run_of p (w ++ t) = w ++ run_of p t.
Proof.
  induction w as [|ch w IH]; simpl; intros H; [reflexivity|].
  apply andb_prop in H. destruct H as [E H]. rewrite E, IH by exact H.
  reflexivity.
Qed.

Lemma after_run_length s : length (after_run p s) <= length s.
Proof.
  induction s as [|ch s IH]; simpl; [lia|].
  destruct (p ch); simpl; lia.
Qed.

(** Two runs of accepted characters, each followed by a character that is
    not accepted or by the end of the text, are the same run. *)
Lemma maximal_run_unique w t w' t' :
  forallb p w = true -> forallb p w' = true ->
  run_of p t = [] -> run_of p t' = [] ->
  w ++ t = w' ++ t' -> w = w' /\ t = t'.
Proof.
  intros Hw Hw' Ht Ht' E.
  assert (Ew : w = w').
  { rewrite <- (app_nil_r w), <- (app_nil_r w'), <- Ht at 1. rewrite <- Ht'.
    rewrite <- (run_of_app w t Hw), <- (run_of_app w' t' Hw'), E. reflexivity. }
  subst w'. split; [reflexivity|]. apply app_inv_head in E. exact E.
Qed.

(** A run followed by a character that is not accepted ends at that
    character, wherever the text is cut. *)
Lemma run_unique sep w y w' y' :
  p sep = false -> forallb p w = true -> forallb p w' = true ->
  w ++ sep :: y = w' ++ sep :: y' -> w = w' /\ y = y'.
Proof.
  intros Hs Hw Hw' E.
  assert (Hr : forall z, run_of p (sep :: z) = []) by (intros z; simpl; rewrite Hs; reflexivity).
  destruct (maximal_run_unique w (sep :: y) w' (sep :: y') Hw Hw' (Hr y) (Hr y') E)
    as [-> E']. split; [reflexivity | congruence].
Qed.

End Greedy.

Section GreedyMatcher.

Variable A : Type.
Variable items : list set_item.
Variable k : cont A.
Hypothesis k_total : forall st, k st <> None.

(** With a continuation that accepts every state, the greedy repeat of a set
    stops after the longest run. *)
Lemma repeat_greedy_run n s cs :
  length s <= n ->
  repeat_greedy (sre_match true (In items)) n k (s, cs)
  = k (after_run (in_set true items) s, cs).
Proof.
  set (body := sre_match true (In items)).
  assert (Hb : forall k0 ch s0 cs0,
             body k0 (ch :: s0, cs0)
             = if in_set true items ch then k0 (s0, cs0) else None)
    by reflexivity.
  assert (Hnil : forall k0 cs0, body k0 ([], cs0) = None) by reflexivity.
  clearbody body.
  revert s. induction n as [|n IH]; intros s Hn.
  - destruct s; [reflexivity | simpl in Hn; lia].
  - destruct s as [|ch s]; cbn [repeat_greedy after_run].
    + rewrite Hnil. reflexivity.
    + rewrite Hb. destruct (in_set true items ch) eqn:E; [|reflexivity].
      cbn [rest fst length].
      replace (length s <? S (length s)) with true
        by (symmetry; apply Nat.ltb_lt; lia).
      rewrite IH by (simpl in Hn; lia).
      destruct (k (after_run (in_set true items) s, cs)) eqn:Ek; [reflexivity|].
      exfalso. eapply k_total. exact Ek.
Qed.

End GreedyMatcher.

(** ** One attempt of [FUNCTION_RE] *)

Lemma forallb_weaken (p q : codepoint -> bool) (l : pystr) :
  (forall ch, p ch = true -> q ch = true) ->
  forallb p l = true -> forallb q l = true.
Proof.
  intros Hpq. induction l as [|ch l IH]; simpl; [reflexivity|].
  intros H. apply andb_prop in H. destruct H as [H1 H2].
  rewrite (Hpq _ H1), (IH H2). reflexivity.
Qed.

Lemma excluded (p : codepoint -> bool) :
  p RPAREN = false -> forall ch, p ch = true -> not_rparen ch = true.
Proof.
  intros Hp ch H. unfold not_rparen.
  destruct (N.eqb_spec ch RPAREN) as [->|]; [congruence | reflexivity].
Qed.

(** No closing parenthesis inside a parameter list. *)
Lemma param_list_no_rparen ps : param_list ps -> forallb not_rparen ps = true.
Proof.
  induction 1 as [|w sp1 cm sp2 ps Nw Hw Hs1 Hcm Hs2 Hps IH]; [reflexivity|].
  repeat rewrite forallb_app.
  rewrite (forallb_weaken _ _ w (excluded param_char eq_refl) Hw).
  rewrite (forallb_weaken _ _ sp1 (excluded is_space eq_refl) Hs1).
  rewrite (forallb_weaken _ _ sp2 (excluded is_space eq_refl) Hs2).
  rewrite IH. destruct Hcm as [-> | ->]; reflexivity.
Qed.

Lemma app_same_length (w w' t t' : pystr) :
  length w = length w' -> w ++ t = w' ++ t' -> w = w' /\ t = t'.
Proof.
  revert w'. induction w as [|x w IH]; intros [|x' w'] L E;
    try discriminate L; simpl in *.
  - split; [reflexivity | exact E].
  - injection E as -> E. injection L as L.
    destruct (IH _ L E) as [-> ->]. split; reflexivity.
Qed.

(** A text starts with at most one well-formed head. *)
Lemma head_unique ws name ps t ws' name' ps' t' :
  well_formed_head ws name ps -> well_formed_head ws' name' ps' ->
  head_text ws name ps ++ t = head_text ws' name' ps' ++ t' ->
  ws = ws' /\ name = name' /\ ps = ps' /\ t = t'.
Proof.
  intros (L & _ & _ & Hn & Hps) (L' & _ & _ & Hn' & Hps') E.
  unfold head_text in E. repeat rewrite <- app_assoc in E.
  apply app_same_length in E; [|congruence]. destruct E as [-> E].
  simpl in E. injection E as E.
  apply (run_unique ident_char LPAREN) in E; try assumption; [|reflexivity].
  destruct E as [-> E].
  apply param_list_no_rparen in Hps, Hps'.
  apply (run_unique not_rparen RPAREN) in E; try assumption; [|reflexivity].
  destruct E as [-> E]. injection E as E.
  repeat split; assumption.
Qed.

(** The return type as the matcher takes it: the longest run. *)
Lemma rtype_greedy b :
  sre_match true RTYPE_RE (fun st => Some st) b
  = match rest b with
    | ch :: s =>
        if rtype_char ch
        then Some (after_run rtype_char s, (3, ch :: run_of rtype_char s) :: caps b)
        else None
    | [] => None
    end.
Proof.
  destruct b as [[|ch s] cs]; [reflexivity|].
  change (sre_match true RTYPE_RE (fun st => Some st) (ch :: s, cs))
    with (if in_set true RTYPE ch
          then repeat_greedy (sre_match true (In RTYPE)) (length s)
                 (fun st' => Some (rest st',
                                   mark (Some 3) (consumed (ch :: s, cs) st')
                                        (caps st')))
                 (s, cs)
          else None).
  unfold rtype_char. cbn [rest fst].
  destruct (in_set true RTYPE ch) eqn:E; [|reflexivity].
  rewrite repeat_greedy_run; [| discriminate | lia].
  cbn [rest caps fst snd mark]. f_equal. f_equal. f_equal. f_equal.
  apply (consumed_app (ch :: s, cs) (after_run (in_set true RTYPE) s, cs)).
  simpl. f_equal. apply run_split.
Qed.

Lemma match_here_entry s c :
  match_here true FUNCTION_RE s = Some c ->
  exists ws name ps rt,
    entry s ws name ps rt (rest c) /\ caps c = groups_of name ps rt.
Proof.
  intros H.
  change (sre_match true HEAD_RE (sre_match true RTYPE_RE (fun st => Some st))
            (s, []) = Some c) in H.
  apply sre_match_sound in H. destruct H as (b & Hb & H).
  apply matches_head in Hb. destruct Hb as (ws & name & ps & Hwf & R & C).
  rewrite rtype_greedy in H.
  destruct (rest b) as [|ch t] eqn:Eb; [discriminate|].
  destruct (rtype_char ch) eqn:Ech; [|discriminate].
  injection H as <-. simpl in *.
  exists ws, name, ps, (ch :: run_of rtype_char t).
  split; [|rewrite C; reflexivity].
  split; [exact Hwf|]. split; [|split].
  - split; [discriminate|]. simpl. rewrite Ech. apply run_of_accepted.
  - rewrite R. simpl. rewrite <- run_split. reflexivity.
  - apply run_of_after_run.
Qed.

Lemma entry_unique s ws name ps rt post ws' name' ps' rt' post' :
  entry s ws name ps rt post -> entry s ws' name' ps' rt' post' ->
  ws = ws' /\ name = name' /\ ps = ps' /\ rt = rt' /\ post = post'.
Proof.
  intros (Hh & (_ & Hr) & E & Hm) (Hh' & (_ & Hr') & E' & Hm').
  rewrite E in E'.
  destruct (head_unique _ _ Hh Hh' E') as (-> & -> & -> & Et).
  destruct (maximal_run_unique rtype_char _ _ _ _ Hr Hr' Hm Hm' Et) as [-> ->].
  repeat split.
Qed.

(** One attempt succeeds exactly on the texts that start with a well-formed
    entry, and yields its three groups and the text after it. *)
Theorem match_here_spec s c :
  match_here true FUNCTION_RE s = Some c <->
  exists ws name ps rt,
    entry s ws name ps rt (rest c) /\ caps c = groups_of name ps rt.
Proof.
  split; [apply match_here_entry|].
  intros (ws & name & ps & rt & He & C).
  destruct (match_here true FUNCTION_RE s) as [c'|] eqn:E.
  - apply match_here_entry in E.
    destruct E as (ws' & name' & ps' & rt' & He' & C').
    destruct (entry_unique He He') as (-> & -> & -> & -> & R).
    f_equal. apply same_state; congruence.
  - exfalso. revert E.
    apply (@sre_match_complete state true FUNCTION_RE (fun st => Some st) (s, []) c);
      [|discriminate].
    apply matches_function. destruct He as (Hh & Hr & Es & _).
    exists ws, name, ps, rt. repeat split; try apply Hh; try apply Hr; assumption.
Qed.

(** ** The scan of [findall] *)

Lemma item_of_FUNCTION_RE m cs : item_of FUNCTION_RE m cs = triple_of cs.
Proof. reflexivity. Qed.

Lemma scan_skip icase r m s :
  scan icase r (length m) (m ++ s) = scan icase r 0 s.
Proof. induction m as [|x m IH]; simpl; [destruct s; reflexivity | exact IH]. Qed.

Lemma match_here_empty : match_here true FUNCTION_RE [] = None.
Proof. reflexivity. Qed.

Lemma scan_nil : scan true FUNCTION_RE 0 [] = [].
Proof. reflexivity. Qed.

Lemma scan_miss s :
  match_here true FUNCTION_RE s = None ->
  scan true FUNCTION_RE 0 s = scan true FUNCTION_RE 0 (tl s).
Proof.
  intros H. destruct s as [|x s]; [reflexivity|].
  cbn [scan tl]. rewrite H. reflexivity.
Qed.

Lemma scan_hit s c :
  match_here true FUNCTION_RE s = Some c ->
  scan true FUNCTION_RE 0 s = triple_of (caps c) :: scan true FUNCTION_RE 0 (rest c).
Proof.
  intros H. pose proof (match_here_entry _ H) as (ws & name & ps & rt & He & _).
  destruct He as (Hh & _ & Es & _).
  destruct s as [|x s]; [discriminate H|].
  cbn [scan]. rewrite H, item_of_FUNCTION_RE. f_equal.
  assert (E : exists m, s = m ++ rest c).
  { destruct Hh as (L & _). unfold head_text in Es.
    destruct ws as [|w ws]; [discriminate L|].
    simpl in Es. injection Es as _ Es. rewrite Es.
    eexists. repeat rewrite app_assoc. reflexivity. }
  destruct E as (m & ->).
  assert (L : length (x :: m ++ rest c) - length (rest c) - 1 = length m).
  { cbn [length]. rewrite length_app. lia. }
  rewrite L.
  apply scan_skip.
Qed.

(** *** Matches, leftmost and first *)

Lemma matches_at_shape s m post x :
  matches_at s m post x <->
  exists ws name ps rt,
    well_formed_head ws name ps /\ well_formed_rtype rt
    /\ m = head_text ws name ps ++ rt /\ s = m ++ post
    /\ x = Tuple [name; ps; rt].
Proof.
  split.
  - intros (Es & cs & H & ->). apply matches_function in H.
    destruct H as (ws & name & ps & rt & Hh & Hr & R & C). simpl in R, C.
    exists ws, name, ps, rt. repeat split; try apply Hh; try apply Hr; try exact Es.
    + rewrite Es, app_assoc in R. apply app_inv_tail in R. exact R.
    + rewrite C. reflexivity.
  - intros (ws & name & ps & rt & Hh & Hr & Em & Es & ->).
    split; [exact Es|]. exists (groups_of name ps rt). split; [|reflexivity].
    apply matches_function. exists ws, name, ps, rt.
    repeat split; try apply Hh; try apply Hr.
    simpl. rewrite Es, Em, app_assoc. reflexivity.
Qed.

Lemma matches_at_nonempty s m post x : matches_at s m post x -> m <> [].
Proof.
  intros H. apply matches_at_shape in H.
  destruct H as (ws & name & ps & rt & (L & _) & _ & -> & _).
  destruct ws; [discriminate L | discriminate].
Qed.

(** A run that stops where no accepted character follows is at least as long
    as any run of accepted characters from the same place. *)
Lemma maximal_run_longest p (w t w' t' : pystr) :
  forallb p w = true -> run_of p t = [] -> forallb p w' = true ->
  w' ++ t' = w ++ t -> length w' <= length w.
Proof.
  intros Hw Ht Hw' E.
  assert (Ew : w = w' ++ run_of p t').
  { rewrite <- (run_of_app p w' t' Hw'), E, (run_of_app p w t Hw), Ht.
    symmetry. apply app_nil_r. }
  rewrite Ew, length_app. lia.
Qed.

Lemma entry_matches_at s ws name ps rt post :
  entry s ws name ps rt post ->
  matches_at s (head_text ws name ps ++ rt) post (Tuple [name; ps; rt]).
Proof.
  intros (Hh & Hr & Es & _). apply matches_at_shape.
  exists ws, name, ps, rt. repeat split; try apply Hh; try apply Hr.
  rewrite Es, app_assoc. reflexivity.
Qed.

Lemma entry_longest s ws name ps rt post m' post' x' :
  entry s ws name ps rt post -> matches_at s m' post' x' ->
  length m' <= length (head_text ws name ps ++ rt).
Proof.
  intros (Hh & (_ & Hr) & Es & Hm) H. apply matches_at_shape in H.
  destruct H as (ws' & name' & ps' & rt' & Hh' & (_ & Hr') & -> & Es' & _).
  rewrite Es, <- app_assoc in Es'.
  destruct (head_unique _ _ Hh Hh' Es') as (-> & -> & -> & Et).
  repeat rewrite length_app.
  pose proof (maximal_run_longest rtype_char rt post rt' post' Hr Hm Hr' (eq_sym Et)).
  lia.
Qed.

Lemma match_here_first s c :
  match_here true FUNCTION_RE s = Some c ->
  exists m, first_match s m (rest c) (triple_of (caps c)).
Proof.
  intros H. apply match_here_entry in H.
  destruct H as (ws & name & ps & rt & He & C).
  exists (head_text ws name ps ++ rt). rewrite C. split.
  - apply (entry_matches_at He).
  - intros m' post' x'. apply (entry_longest He).
Qed.

Lemma match_here_none s :
  match_here true FUNCTION_RE s = None <-> no_match_at s.
Proof.
  split.
  - intros H m post x (_ & cs & Hm & _). revert H.
    apply (@sre_match_complete state true FUNCTION_RE (fun st => Some st) (s, []) (post, cs));
      [exact Hm | discriminate].
  - intros H. destruct (match_here true FUNCTION_RE s) as [c|] eqn:E; [|reflexivity].
    apply match_here_first in E. destruct E as (m & E & _).
    exfalso. exact (H _ _ _ E).
Qed.

Lemma first_match_here s m post x :
  first_match s m post x ->
  exists c, match_here true FUNCTION_RE s = Some c
            /\ rest c = post /\ triple_of (caps c) = x.
Proof.
  intros [Hm Hlong].
  destruct (match_here true FUNCTION_RE s) as [c|] eqn:E.
  2:{ apply match_here_none in E. exfalso. exact (E _ _ _ Hm). }
  exists c. split; [reflexivity|].
  apply match_here_entry in E.
  destruct E as (ws & name & ps & rt & He & C).
  pose proof (Hlong _ _ _ (entry_matches_at He)) as L1.
  pose proof (entry_longest He Hm) as L2.
  apply matches_at_shape in Hm.
  destruct Hm as (ws' & name' & ps' & rt' & Hh' & Hr' & -> & Es' & ->).
  destruct He as (Hh & Hr & Es & _).
  rewrite Es, <- app_assoc in Es'.
  destruct (head_unique _ _ Hh Hh' Es') as (-> & -> & -> & Et).
  repeat rewrite length_app in L1, L2.
  apply app_same_length in Et; [|lia]. destruct Et as [-> ->].
  split; [reflexivity | rewrite C; reflexivity].
Qed.

Lemma first_match_unique s m post x m' post' x' :
  first_match s m post x -> first_match s m' post' x' ->
  m = m' /\ post = post' /\ x = x'.
Proof.
  intros H H'. pose proof (proj1 (proj1 H)) as Es. pose proof (proj1 (proj1 H')) as Es'.
  apply first_match_here in H, H'.
  destruct H as (c & E & <- & <-), H' as (c' & E' & <- & <-).
  rewrite E in E'. injection E' as <-.
  rewrite Es in Es'. apply app_inv_tail in Es'. repeat split. exact Es'.
Qed.

(** *** [findall] computes the scan *)

Lemma Scan_skip x s l : no_match_at (x :: s) -> Scan s l -> Scan (x :: s) l.
Proof.
  intros Hx H. destruct H as [s Hall | pre m post y l Hpre Hm Hl].
  - apply Scan_end. intros [|x' pre] t E; simpl in E.
    + subst t. exact Hx.
    + injection E as _ E. exact (Hall _ _ E).
  - change (Scan ((x :: pre) ++ m ++ post) (y :: l)).
    apply Scan_match; try assumption.
    intros [|x' p1] p2 E N; simpl in E.
    + subst p2. exact Hx.
    + injection E as _ E. exact (Hpre _ _ E N).
Qed.

Lemma scan_is_Scan n : forall s, length s <= n -> Scan s (scan true FUNCTION_RE 0 s).
Proof.
  induction n as [|n IH]; intros s L.
  - destruct s; [|simpl in L; lia]. rewrite scan_nil. apply Scan_end.
    intros pre t E. symmetry in E. apply app_eq_nil in E. destruct E as [_ ->].
    apply match_here_none. reflexivity.
  - destruct (match_here true FUNCTION_RE s) as [c|] eqn:E.
    + rewrite (scan_hit _ E).
      destruct (match_here_first _ E) as (m & Hm).
      pose proof (proj1 (proj1 Hm)) as Es.
      pose proof (matches_at_nonempty (proj1 Hm)) as Nm.
      rewrite Es. change (m ++ rest c) with ([] ++ m ++ rest c).
      apply Scan_match.
      * intros p1 p2 E' N. symmetry in E'. apply app_eq_nil in E'.
        destruct E' as [_ ->]. contradiction.
      * rewrite <- Es. exact Hm.
      * apply IH. rewrite Es, length_app in L.
        destruct m; [contradiction | simpl in L; lia].
    + rewrite (scan_miss _ E). destruct s as [|x s].
      * simpl. apply Scan_end.
        intros pre t E'. symmetry in E'. apply app_eq_nil in E'.
        destruct E' as [_ ->]. apply match_here_none. reflexivity.
      * simpl. apply Scan_skip; [apply match_here_none; exact E|].
        apply IH. simpl in L. lia.
Qed.

Lemma scan_all_miss s :
  (forall pre t, s = pre ++ t -> no_match_at t) -> scan true FUNCTION_RE 0 s = [].
Proof.
  induction s as [|x s IH]; intros H; [reflexivity|].
  rewrite scan_miss by (apply match_here_none; apply (H [] _ eq_refl)).
  apply IH. intros pre t E. apply (H (x :: pre)). simpl. rewrite E. reflexivity.
Qed.

Lemma scan_skip_pre pre t :
  (forall p1 p2, pre = p1 ++ p2 -> p2 <> [] -> no_match_at (p2 ++ t)) ->
  scan true FUNCTION_RE 0 (pre ++ t) = scan true FUNCTION_RE 0 t.
Proof.
  induction pre as [|x pre IH]; intros H; [reflexivity|].
  rewrite scan_miss
    by (apply match_here_none; apply (H [] (x :: pre) eq_refl); discriminate).
  apply IH. intros p1 p2 E N. apply (H (x :: p1)); [|exact N].
  simpl. rewrite E. reflexivity.
Qed.

(** The relation [Scan] has one outcome on every text, the list [findall]
    returns. *)
Theorem Scan_findall s l : Scan s l <-> l = FUNCTION_RE_findall s.
Proof.
  unfold FUNCTION_RE_findall, findall. split.
  - induction 1 as [s Hall | pre m post x l Hpre Hm Hl IH].
    + symmetry. apply scan_all_miss. exact Hall.
    + rewrite (scan_skip_pre _ Hpre).
      apply first_match_here in Hm. destruct Hm as (c & E & <- & <-).
      rewrite (scan_hit _ E), IH. reflexivity.
  - intros ->. apply (scan_is_Scan (n := length s)). lia.
Qed.

(** *** A white-space character is as good as a space *)

Lemma match_here_first_space w s :
  is_space w = true ->
  match_here true FUNCTION_RE (w :: s) = match_here true FUNCTION_RE (chr " " :: s).
Proof.
  intros Hw.
  unfold match_here, FUNCTION_RE, HEAD_RE, exactly, SPACE.
  cbn [sre_match repeat_min rest caps fst snd].
  rewrite !space_set_ok, Hw. reflexivity.
Qed.

Lemma findall_first_space w s :
  is_space w = true ->
  FUNCTION_RE_findall (w :: s) = FUNCTION_RE_findall (chr " " :: s).
Proof.
  intros Hw. unfold FUNCTION_RE_findall, findall. cbn [scan].
  rewrite (@match_here_first_space w s Hw).
  destruct (match_here true FUNCTION_RE (chr " " :: s)); [|reflexivity].
  rewrite !item_of_FUNCTION_RE. reflexivity.
Qed.

(** ** What the script prints *)

Section Runs_of_the_script.

Variable isprintable : codepoint -> bool.

Lemma for_each_print l out :
  for_each l (print isprintable) out = (inr tt, out ++ List.map (line_of isprintable) l).
Proof.
  revert out. induction l as [|x l IH]; intros out; simpl.
  - unfold ret. rewrite app_nil_r. reflexivity.
  - unfold bind, print at 1. rewrite IH, <- app_assoc. reflexivity.
Qed.

Lemma script_completes os p :
  os ARGV = inr p ->
  script isprintable os []
  = (inr tt, List.map (line_of isprintable) (FUNCTION_RE_findall (stdout p))).
Proof.
  intros E. unfold script, subprocess_run, bind. rewrite E. unfold ret.
  apply for_each_print.
Qed.

Lemma script_fails os e :
  os ARGV = inl e -> script isprintable os [] = (inl e, []).
Proof.
  intros E. unfold script, subprocess_run, bind. rewrite E. reflexivity.
Qed.

Lemma printed_completes rc out err :
  printed isprintable (completes rc out err)
  = List.map (line_of isprintable) (FUNCTION_RE_findall out).
Proof.
  unfold printed. rewrite (script_completes (completes rc out err) eq_refl).
  reflexivity.
Qed.

(** *** Every tuple is printed on one line *)

Lemma hexdigit_not_LF d : hexdigit d <> LF.
Proof.
  unfold hexdigit, LF. destruct (d <? 10)%N; lia.
Qed.

Lemma hex_no_LF w n : ~ List.In LF (hex w n).
Proof.
  revert n. induction w as [|w IH]; intros n; simpl; [tauto|].
  rewrite in_app_iff. simpl. intros [H | [H | []]].
  - exact (IH _ H).
  - exact (@hexdigit_not_LF _ H).
Qed.

Lemma escape_no_LF q ch : q <> LF -> ~ List.In LF (escape isprintable q ch).
Proof.
  intros Hq. unfold escape, BACKSLASH, TAB, CR, LF in *.
  repeat match goal with
  | |- context [if ?b then _ else _] => destruct b eqn:?
  end;
  repeat match goal with
  | H : (_ || _)%bool = true |- _ => apply orb_prop in H
  | H : (_ || _)%bool = false |- _ => apply orb_false_elim in H; destruct H
  | H : (_ =? _)%N = true |- _ => apply N.eqb_eq in H
  | H : (_ =? _)%N = false |- _ => apply N.eqb_neq in H
  | H : (_ <? _)%N = true |- _ => apply N.ltb_lt in H
  | H : (_ <? _)%N = false |- _ => apply N.ltb_ge in H
  | H : (_ <=? _)%N = true |- _ => apply N.leb_le in H
  | H : (_ <=? _)%N = false |- _ => apply N.leb_gt in H
  end;
  simpl; rewrite ?in_app_iff; simpl;
  intros Hin;
  repeat match goal with
  | H : _ \/ _ |- _ => destruct H
  | H : False |- _ => destruct H
  | H : List.In _ (hex _ _) |- _ => exact (@hex_no_LF _ _ H)
  | H : hexdigit _ = _ |- _ => exact (@hexdigit_not_LF _ H)
  end;
  repeat match goal with
  | H : (_ =? _)%N = true |- _ => apply N.eqb_eq in H
  end; try lia; try discriminate.
Qed.

Lemma quote_of_not_LF s : quote_of s <> LF.
Proof. unfold quote_of. destruct (_ && _); discriminate. Qed.

Lemma repr_no_LF s : ~ List.In LF (repr isprintable s).
Proof.
  unfold repr. intros [H | H].
  - exact (@quote_of_not_LF s H).
  - apply in_app_or in H. destruct H as [H | [H | []]].
    + apply in_flat_map in H. destruct H as (ch & _ & H).
      exact (@escape_no_LF _ ch (@quote_of_not_LF s) H).
    + exact (@quote_of_not_LF s H).
Qed.

Lemma no_LF_app (a b : pystr) :
  ~ List.In LF a -> ~ List.In LF b -> ~ List.In LF (a ++ b).
Proof.
  intros Ha Hb H. apply in_app_or in H. destruct H; [apply Ha | apply Hb]; assumption.
Qed.

Ltac no_LF_literal :=
  let H := fresh in
  intros H; cbv in H;
  repeat (destruct H as [H | H]; [discriminate H|]); exact H.

Lemma join_no_LF sep l :
  ~ List.In LF sep -> Forall (fun x => ~ List.In LF x) l -> ~ List.In LF (join sep l).
Proof.
  intros Hsep. induction 1 as [|x l Hx Hl IH]; simpl; [tauto|].
  destruct l as [|y l]; [exact Hx|].
  apply no_LF_app; [exact Hx|]. apply no_LF_app; [exact Hsep | exact IH].
Qed.

Lemma repr_tuple_no_LF fields : ~ List.In LF (repr_tuple isprintable fields).
Proof.
  assert (Hj : ~ List.In LF (join (str ", ") (List.map (repr isprintable) fields))).
  { apply join_no_LF; [no_LF_literal|].
    apply Forall_forall. intros x Hx. apply in_map_iff in Hx.
    destruct Hx as (s & <- & _). apply repr_no_LF. }
  unfold repr_tuple. destruct fields as [|x [|y l]].
  - no_LF_literal.
  - apply no_LF_app; [no_LF_literal|].
    apply no_LF_app; [apply repr_no_LF | no_LF_literal].
  - apply no_LF_app; [no_LF_literal|].
    apply no_LF_app; [exact Hj | no_LF_literal].
Qed.

Lemma triple_one_line x : is_triple x -> one_line (line_of isprintable x).
Proof.
  intros (name & ps & rt & ->). exists (repr_tuple isprintable [name; ps; rt]).
  split; [reflexivity | apply repr_tuple_no_LF].
Qed.

End Runs_of_the_script.

Lemma scan_triples n s : Forall is_triple (scan true FUNCTION_RE n s).
Proof.
  revert n. induction s as [|x s IH]; intros n.
  - simpl. destruct n; constructor.
  - cbn [scan]. destruct n as [|n]; [|apply IH].
    destruct (match_here true FUNCTION_RE (x :: s)) as [c|]; [|apply IH].
    constructor; [|apply IH].
    rewrite item_of_FUNCTION_RE. unfold triple_of. eexists _, _, _. reflexivity.
Qed.

(** ** Checks of the model on sample texts *)

(** The flag [re.I]: capitals are accepted where the pattern names small
    letters. *)
Example findall_ignores_case :
  FUNCTION_RE_findall (str "     - TRIM(Col) -> String")
  = [Tuple [str "TRIM"; str "Col"; str "String"]].
Proof. reflexivity. Qed.

(** Two entries on two lines, a line of prose between them. *)
Example findall_two_entries :
  FUNCTION_RE_findall
    (str "## Strings" ++ [LF] ++ str "    - trim(col) -> string" ++ [LF]
     ++ str "        Trim white space." ++ [LF]
     ++ str "    - len(col) -> number" ++ [LF])
  = [Tuple [str "trim"; str "col"; str "string"];
     Tuple [str "len"; str "col"; str "number"]].
Proof. reflexivity. Qed.

(** A parameter list may run over a line break, which [repr] then escapes. *)
Example print_escapes_line_breaks :
  printed no_table
    (completes 0 (str "     - f(a," ++ [LF] ++ str "b) -> int") [])
  = [str "('f', 'a," ++ [BACKSLASH] ++ str "nb', 'int')" ++ [LF]].
Proof. reflexivity. Qed.

(** A parameter list that starts with a comma is not one of the pattern. *)
Example leading_comma_is_rejected :
  FUNCTION_RE_findall (str "     - f(, a) -> int") = [].
Proof. reflexivity. Qed.

(** ** Properties of the script *)

(** C1.  For every captured text, the printed lines are, one line per match
    and in the order of the text, the tuples of the three groups of the
    matches of [FUNCTION_RE] found by the leftmost, non-overlapping scan; that
    scan has exactly one outcome. *)
Theorem printed_tuples_are_the_scan
  (isprintable : codepoint -> bool) (rc : Z) (text err : pystr) :
  exists items,
    Scan text items
    /\ (forall items', Scan text items' -> items' = items)
    /\ Forall is_triple items
    /\ printed isprintable (completes rc text err)
       = List.map (line_of isprintable) items
    /\ Forall one_line (printed isprintable (completes rc text err)).
Proof.
  exists (FUNCTION_RE_findall text).
  split; [apply Scan_findall; reflexivity|].
  split; [intros items' H; apply Scan_findall; exact H|].
  split; [apply scan_triples|].
  split; [apply printed_completes|].
  rewrite printed_completes. apply Forall_forall. intros l Hl.
  apply in_map_iff in Hl. destruct Hl as (x & <- & Hx).
  apply triple_one_line.
  pose proof (scan_triples 0 text) as Ht.
  rewrite Forall_forall in Ht. apply Ht. exact Hx.
Qed.

(** *** The scenarios of the specification *)

(** C4, as stated, fails: on the text made of the line
    [    - trim(col) -> string] alone nothing is printed, because the pattern
    asks for four white-space characters before the literal [ - ], and the
    line has three before the space of [ - ]. *)
Lemma trim_line_alone_prints_nothing :
  printed no_table (completes 0 trim_line []) = []
  /\ printed no_table (completes 0 trim_line [])
     <> [str "('trim', 'col', 'string')" ++ [LF]].
Proof. split; [reflexivity | discriminate]. Qed.

(** C4, amended.  When the line [    - trim(col) -> string] comes after one
    white-space character, such as the line break that ends the line before
    it, exactly one tuple is printed, ('trim', 'col', 'string'). *)
Theorem trim_line_after_white_space
  (isprintable : codepoint -> bool) (rc : Z) (err : pystr) (w : codepoint) :
  is_space w = true ->
  printed isprintable (completes rc (w :: trim_line) err)
  = [str "('trim', 'col', 'string')" ++ [LF]].
Proof.
  intros Hw. rewrite printed_completes, (@findall_first_space w trim_line Hw).
  reflexivity.
Qed.

Lemma trim_line_after_white_space_witness :
  is_space LF = true
  /\ printed no_table (completes 0 (LF :: trim_line) [])
     = [str "('trim', 'col', 'string')" ++ [LF]].
Proof.
  split; [reflexivity|].
  apply (@trim_line_after_white_space no_table 0 [] LF). reflexivity.
Defined.

(** C5, as stated, fails: the line [concat_line] alone yields no match. *)
Lemma concat_line_alone_prints_nothing :
  printed no_table (completes 0 concat_line []) = []
  /\ printed no_table (completes 0 concat_line [])
     <> [str "('concat', 'col1, col2, *', 'string')" ++ [LF]].
Proof. split; [reflexivity | discriminate]. Qed.

(** C5, amended.  When the line [concat_line] comes after one white-space
    character, exactly one tuple is printed, and its second component is the
    whole parameter list, star included. *)
Theorem concat_line_after_white_space
  (isprintable : codepoint -> bool) (rc : Z) (err : pystr) (w : codepoint) :
  is_space w = true ->
  FUNCTION_RE_findall (w :: concat_line)
  = [Tuple [str "concat"; str "col1, col2, *"; str "string"]]
  /\ printed isprintable (completes rc (w :: concat_line) err)
     = [str "('concat', 'col1, col2, *', 'string')" ++ [LF]].
Proof.
  intros Hw. rewrite printed_completes, (@findall_first_space w concat_line Hw).
  split; reflexivity.
Qed.

Lemma concat_line_after_white_space_witness :
  is_space LF = true
  /\ FUNCTION_RE_findall (LF :: concat_line)
     = [Tuple [str "concat"; str "col1, col2, *"; str "string"]]
  /\ printed no_table (completes 0 (LF :: concat_line) [])
     = [str "('concat', 'col1, col2, *', 'string')" ++ [LF]].
Proof.
  split; [reflexivity|].
  apply (@concat_line_after_white_space no_table 0 [] LF). reflexivity.
Defined.

(** C6, as stated, fails: the line [    - name() -> type] alone yields no
    match. *)
Lemma name_line_alone_has_no_match :
  FUNCTION_RE_findall name_line = []
  /\ forall m post x, ~ matches_at name_line m post x.
Proof.
  split; [reflexivity|]. apply match_here_none. reflexivity.
Qed.

(** C6, amended.  When the line [    - name() -> type] comes after one
    white-space character, there is one match, and its parameter group is the
    empty text. *)
Theorem name_line_after_white_space (w : codepoint) :
  is_space w = true ->
  FUNCTION_RE_findall (w :: name_line) = [Tuple [str "name"; []; str "type"]].
Proof.
  intros Hw. rewrite (@findall_first_space w name_line Hw). reflexivity.
Qed.

Lemma name_line_after_white_space_witness :
  is_space LF = true
  /\ FUNCTION_RE_findall (LF :: name_line) = [Tuple [str "name"; []; str "type"]].
Proof.
  split; [reflexivity|].
  apply (@name_line_after_white_space LF). reflexivity.
Defined.

(** *** Exit status, standard error, launch failure *)

(** C7.  Two runs whose children left the same text on standard output print
    the same lines in the same order and end the same way, whatever the exit
    statuses and the texts on standard error. *)
Theorem output_depends_on_stdout_only
  (isprintable : codepoint -> bool) (os1 os2 : launcher)
  (p1 p2 : CompletedProcess) :
  os1 ARGV = inr p1 -> os2 ARGV = inr p2 -> stdout p1 = stdout p2 ->
  printed isprintable os1 = printed isprintable os2
  /\ uncaught isprintable os1 = uncaught isprintable os2.
Proof.
  intros E1 E2 E. unfold printed, uncaught.
  rewrite (script_completes isprintable os1 E1),
          (script_completes isprintable os2 E2), E.
  split; reflexivity.
Qed.

Lemma output_depends_on_stdout_only_witness :
  printed no_table (completes 0 (LF :: trim_line) [])
  = printed no_table (completes 1 (LF :: trim_line) (str "error: no such file"))
  /\ uncaught no_table (completes 0 (LF :: trim_line) [])
     = uncaught no_table (completes 1 (LF :: trim_line) (str "error: no such file")).
Proof.
  apply (@output_depends_on_stdout_only no_table
           (completes 0 (LF :: trim_line) [])
           (completes 1 (LF :: trim_line) (str "error: no such file"))
           _ _ eq_refl eq_refl eq_refl).
Defined.

(** C8.  When the launch fails, the launch error leaves the script uncaught
    and nothing is printed. *)
Theorem launch_failure_propagates
  (isprintable : codepoint -> bool) (os : launcher) (e : exception) :
  os ARGV = inl e ->
  uncaught isprintable os = Some e /\ printed isprintable os = [].
Proof.
  intros E. unfold printed, uncaught. rewrite (script_fails isprintable os E).
  split; reflexivity.
Qed.

Lemma launch_failure_propagates_witness :
  uncaught no_table (fails FileNotFoundError) = Some FileNotFoundError
  /\ printed no_table (fails FileNotFoundError) = [].
Proof.
  apply (@launch_failure_propagates no_table (fails FileNotFoundError)
           FileNotFoundError eq_refl).
Defined.

(** *** White space other than spaces, entries inside a line, greed *)

(** C9.  The indentation is any four white-space characters and the pattern
    is not tied to the start of a line: a text none of whose lines starts with
    four spaces still yields a match, be the entry behind four tabs or in the
    middle of a line. *)
Theorem entries_without_four_space_indent
  (isprintable : codepoint -> bool) (rc : Z) (err : pystr) :
  (filter four_space_indent (split_lines tab_line) = []
   /\ printed isprintable (completes rc tab_line err)
      = [str "('f', 'a', 'int')" ++ [LF]])
  /\ (filter four_space_indent (split_lines inner_line) = []
      /\ printed isprintable (completes rc inner_line err)
         = [str "('f', 'a', 'int')" ++ [LF]]).
Proof.
  rewrite !printed_completes. repeat split; reflexivity.
Qed.

(** C10.  The return type is taken greedily through letters and spaces: when
    words follow the entry on its line, the third component of the tuple is
    the return type with those words appended. *)
Theorem return_type_takes_trailing_words
  (isprintable : codepoint -> bool) (rc : Z) (err : pystr) :
  FUNCTION_RE_findall (LF :: wordy_line)
  = [Tuple [str "f"; str "a"; str "int" ++ str " or something else"]]
  /\ printed isprintable (completes rc (LF :: wordy_line) err)
     = [str "('f', 'a', 'int or something else')" ++ [LF]].
Proof.
  rewrite printed_completes. split; reflexivity.
Qed.

(** *** Where a match can start *)

Lemma match_here_mark s c :
  match_here true FUNCTION_RE s = Some c -> mark_here s = true.
Proof.
  intros H. apply match_here_entry in H.
  destruct H as (ws & name & ps & rt & ((L & Hws & _) & _ & -> & _) & _).
  destruct ws as [|a [|b [|c' [|d [|? ?]]]]]; try discriminate L.
  simpl in Hws |- *.
  repeat (apply andb_prop in Hws; destruct Hws as [? Hws]).
  repeat (apply andb_true_intro; split); try assumption; reflexivity.
Qed.

Lemma scan_without_mark s :
  has_mark s = false -> scan true FUNCTION_RE 0 s = [].
Proof.
  induction s as [|x s IH]; intros H; [reflexivity|].
  cbn [has_mark] in H. apply orb_false_elim in H. destruct H as [Hm Hs].
  rewrite scan_miss; [exact (IH Hs)|].
  destruct (match_here true FUNCTION_RE (x :: s)) as [c|] eqn:E; [|reflexivity].
  apply match_here_mark in E. congruence.
Qed.

(** C3, as stated, fails: a line indented with four tabs does not begin with
    four spaces, and its entry is matched and printed all the same. *)
Lemma tab_indented_line_is_matched :
  split_lines tabbed_trim_line = [tabbed_trim_line]
  /\ four_space_indent tabbed_trim_line = false
  /\ printed no_table (completes 0 tabbed_trim_line [])
     = [str "('trim', 'col', 'string')" ++ [LF]].
Proof. repeat split. Qed.

(** C3, amended.  A match needs four white-space characters of any kind
    (spaces, tabs, line breaks, ...) immediately followed by the literal
    [ - ], at the start of a line or not; a text in which that sequence occurs
    nowhere yields no match and no printed tuple, however well formed the rest
    of its entries. *)
Theorem no_indent_mark_no_tuple
  (isprintable : codepoint -> bool) (rc : Z) (text err : pystr) :
  has_mark text = false ->
  FUNCTION_RE_findall text = []
  /\ printed isprintable (completes rc text err) = [].
Proof.
  intros H. rewrite printed_completes.
  unfold FUNCTION_RE_findall, findall. rewrite (scan_without_mark _ H).
  split; reflexivity.
Qed.

Lemma no_indent_mark_no_tuple_witness :
  has_mark (str "  - trim(col) -> string") = false
  /\ FUNCTION_RE_findall (str "  - trim(col) -> string") = []
  /\ printed no_table (completes 0 (str "  - trim(col) -> string") []) = [].
Proof.
  split; [reflexivity|].
  apply (@no_indent_mark_no_tuple no_table 0 (str "  - trim(col) -> string") []).
  reflexivity.
Defined.

(** *** Texts made of entry lines and other lines *)

Lemma fullmatch_params ps :
  fullmatch true PARAMS_RE ps = true <-> param_list ps.
Proof.
  unfold fullmatch. split.
  - destruct (sre_match _ _ _ _) as [[]|] eqn:E; [intros _ | discriminate].
    apply sre_match_sound in E. destruct E as (c & Hc & E).
    apply matches_params in Hc. destruct Hc as (ps' & Hps & R & _).
    destruct (rest c); [|discriminate]. simpl in R.
    rewrite app_nil_r in R. subst ps'. exact Hps.
  - intros H.
    destruct (sre_match _ _ _ _) as [[]|] eqn:E; [reflexivity|].
    exfalso. revert E.
    apply (@sre_match_complete unit true PARAMS_RE _ (ps, []) ([], []));
      [|discriminate].
    apply matches_params. exists ps. simpl. rewrite app_nil_r. repeat split.
    exact H.
Qed.

Lemma nonempty_true s : nonempty s = true -> s <> [].
Proof. destruct s; [discriminate | discriminate]. Qed.

Lemma entry_line_hit name ps rt t :
  well_formed (Entry name ps rt) = true ->
  match_here true FUNCTION_RE (entry_text name ps rt ++ LF :: t)
  = Some (LF :: t, groups_of name ps rt).
Proof.
  intros H. simpl in H.
  repeat (apply andb_prop in H; destruct H as [H ?]).
  apply match_here_spec. exists (str "    "), name, ps, rt.
  split; [|reflexivity]. split; [|split; [|split]].
  - repeat split; try assumption.
    + apply nonempty_true. assumption.
    + apply fullmatch_params. assumption.
  - split; [apply nonempty_true|]; assumption.
  - unfold entry_text. simpl rest. rewrite <- app_assoc. reflexivity.
  - reflexivity.
Qed.

(** A line without [ - ] hides no [ - ]: one found in the text that starts
    with such a line lies after the line break that ends it. *)
Lemma dash_after_line l t j :
  has_dash l = false ->
  dash_here (skipn j (l ++ LF :: t)) = true ->
  length l < j /\ dash_here (skipn (j - length l - 1) t) = true.
Proof.
  revert j. induction l as [|x l IH]; intros j Hl H.
  - destruct j as [|j]; simpl in H.
    + destruct t as [|? [|? ?]]; discriminate H.
    + simpl. rewrite Nat.sub_0_r. split; [lia | exact H].
  - cbn [has_dash] in Hl. apply orb_false_elim in Hl. destruct Hl as [Hx Hl].
    destruct j as [|j].
    + exfalso. cbn [skipn] in H.
      destruct l as [|y [|z l]]; simpl in H, Hx.
      * destruct t as [|? ?]; [discriminate H|].
        rewrite andb_false_r in H. discriminate H.
      * rewrite andb_false_r in H. discriminate H.
      * congruence.
    + cbn [skipn app] in H. destruct (IH j Hl H) as [L D].
      simpl. split; [lia | exact D].
Qed.

Lemma has_dash_suffix p l : has_dash (p ++ l) = false -> has_dash l = false.
Proof.
  induction p as [|x p IH]; [tauto|].
  cbn [app has_dash]. intros H. apply orb_false_elim in H. apply IH, H.
Qed.

Lemma text_of_cons l ls : text_of (l :: ls) = line_text l ++ LF :: text_of ls.
Proof. unfold text_of. simpl. rewrite <- app_assoc. reflexivity. Qed.

(** No [ - ] in the first five characters of a text made of such lines. *)
Lemma text_of_head_clean ls :
  forallb well_formed ls = true ->
  forall j, j <= 3 -> dash_here (skipn j (text_of ls)) = false.
Proof.
  induction ls as [|[name ps rt | l] ls IH]; intros H j Hj.
  - simpl. destruct j; reflexivity.
  - destruct j as [|[|[|[|j]]]]; try lia; reflexivity.
  - cbn [forallb well_formed] in H. apply andb_prop in H. destruct H as [Hl H].
    apply negb_true_iff in Hl.
    rewrite text_of_cons. cbn [line_text].
    destruct (dash_here (skipn j (l ++ LF :: text_of ls))) eqn:E; [|reflexivity].
    apply dash_after_line in E; [|exact Hl]. destruct E as [L E].
    rewrite IH in E; [discriminate E | exact H | lia].
Qed.

Lemma mark_here_dash s : mark_here s = true -> dash_here (skipn 4 s) = true.
Proof.
  destruct s as [|a [|b [|c [|d s]]]]; try discriminate.
  cbn [mark_here skipn]. intros H. apply andb_prop in H. apply H.
Qed.

(** The scan finds nothing in a line without [ - ], nor at its line break. *)
Lemma scan_other_line l t :
  has_dash l = false ->
  (forall j, j <= 3 -> dash_here (skipn j t) = false) ->
  scan true FUNCTION_RE 0 (l ++ LF :: t) = scan true FUNCTION_RE 0 t.
Proof.
  intros Hl Ht.
  change (l ++ LF :: t) with (l ++ [LF] ++ t). rewrite app_assoc.
  apply scan_skip_pre. intros p1 p2 E N.
  destruct (exists_last N) as (l2 & x & ->).
  rewrite app_assoc in E. apply app_inj_tail in E. destruct E as [-> <-].
  apply match_here_none.
  destruct (match_here true FUNCTION_RE ((l2 ++ [LF]) ++ t)) as [c|] eqn:E;
    [|reflexivity].
  apply match_here_mark, mark_here_dash in E.
  rewrite <- app_assoc in E. cbn [app] in E.
  apply dash_after_line in E; [|exact (has_dash_suffix _ _ Hl)].
  destruct E as [L E]. rewrite Ht in E; [discriminate E | lia].
Qed.

Lemma findall_text_of ls :
  forallb well_formed ls = true ->
  FUNCTION_RE_findall (text_of ls) = tuples_of ls.
Proof.
  unfold FUNCTION_RE_findall, findall.
  induction ls as [|[name ps rt | l] ls IH]; intros H; [reflexivity| |];
    cbn [forallb] in H; apply andb_prop in H; destruct H as [Hl H];
    rewrite text_of_cons; cbn [line_text].
  - rewrite (@scan_hit _ _ (@entry_line_hit name ps rt _ Hl)).
    cbn [rest caps fst snd].
    change (tuples_of (Entry name ps rt :: ls))
      with (Tuple [name; ps; rt] :: tuples_of ls).
    f_equal. rewrite <- (IH H).
    exact (@scan_other_line [] _ eq_refl (@text_of_head_clean ls H)).
  - cbn [well_formed] in Hl. apply negb_true_iff in Hl.
    rewrite (@scan_other_line l _ Hl (@text_of_head_clean ls H)).
    exact (IH H).
Qed.

Lemma tuples_of_length ls : length (tuples_of ls) = length (filter is_entry ls).
Proof.
  induction ls as [|[name ps rt | l] ls IH]; simpl; [reflexivity | | exact IH].
  f_equal. exact IH.
Qed.

(** C2, as stated, fails: a line that is not an entry line, because it does
    not start with the indentation, still yields a tuple, so that a text
    with one well-formed entry and one malformed line prints two tuples. *)
Lemma malformed_line_yields_a_tuple :
  well_formed (Entry (str "trim") (str "col") (str "string")) = true
  /\ (forall name ps rt, entry_text name ps rt <> note_line)
  /\ FUNCTION_RE_findall
       (text_of [Entry (str "trim") (str "col") (str "string"); Other note_line])
     = [Tuple [str "trim"; str "col"; str "string"];
        Tuple [str "f"; str "a"; str "int"]]
  /\ tuples_of [Entry (str "trim") (str "col") (str "string"); Other note_line]
     = [Tuple [str "trim"; str "col"; str "string"]].
Proof.
  split; [reflexivity|]. split; [|split; reflexivity].
  intros name ps rt H. discriminate H.
Qed.

(** C2, amended.  For every captured text made of lines that each end with a
    line break, N of them well-formed entry lines (four spaces, the literal
    [ - ], a name, a parameter list of the shape the pattern accepts between
    parentheses, the literal [ -> ], a return type that runs to the end of
    the line) and M of them other lines in which the literal [ - ] occurs
    nowhere, exactly N tuples are printed, one per entry and in the order of
    the text, and nothing is printed for the other lines. *)
Theorem well_formed_lines_give_their_tuples
  (isprintable : codepoint -> bool) (rc : Z) (err : pystr) (ls : list line) :
  forallb well_formed ls = true ->
  FUNCTION_RE_findall (text_of ls) = tuples_of ls
  /\ printed isprintable (completes rc (text_of ls) err)
     = List.map (line_of isprintable) (tuples_of ls)
  /\ length (printed isprintable (completes rc (text_of ls) err))
     = length (filter is_entry ls).
Proof.
  intros H. rewrite printed_completes, (findall_text_of ls H).
  repeat split. rewrite length_map. apply tuples_of_length.
Qed.

Lemma well_formed_lines_give_their_tuples_witness :
  forallb well_formed sample_lines = true
  /\ FUNCTION_RE_findall (text_of sample_lines) = tuples_of sample_lines
  /\ printed no_table (completes 0 (text_of sample_lines) [])
     = List.map (line_of no_table) (tuples_of sample_lines)
  /\ length (printed no_table (completes 0 (text_of sample_lines) []))
     = length (filter is_entry sample_lines).
Proof.
  split; [reflexivity|].
  apply (@well_formed_lines_give_their_tuples no_table 0 [] sample_lines).
  reflexivity.
Defined.

(** * Further properties of the pattern and of the script *)

(** ** Tuples and entries of the text *)

Lemma read_off_cons x s y : read_off s y -> read_off (x :: s) y.
Proof.
  intros (pre & ws & name & ps & rt & post & -> & -> & H).
  exists (x :: pre), ws, name, ps, rt, post. repeat split; apply H.
Qed.

Lemma scan_read_off n s : Forall (read_off s) (scan true FUNCTION_RE n s).
Proof.
  revert n. induction s as [|x s IH]; intros n.
  - simpl. destruct n; constructor.
  - assert (Hs : forall k, Forall (read_off (x :: s)) (scan true FUNCTION_RE k s)).
    { intros k. eapply Forall_impl; [|apply IH]. intros y. apply read_off_cons. }
    cbn [scan]. destruct n as [|n]; [|apply Hs].
    destruct (match_here true FUNCTION_RE (x :: s)) as [c|] eqn:E; [|apply Hs].
    constructor; [|apply Hs].
    apply match_here_entry in E.
    destruct E as (ws & name & ps & rt & (Hh & Hr & Es & Hm) & C).
    rewrite item_of_FUNCTION_RE, C.
    exists [], ws, name, ps, rt, (rest c). repeat split; try assumption;
      try apply Hh; try apply Hr.
Qed.

(** X1.  No tuple is invented: every tuple the script prints is read off the
    captured text, where a well-formed entry stands whose name, parameter
    list and return type are the three fields, the return type being followed
    by the end of the text or by a character that no return type holds. *)
Theorem printed_tuples_are_read_off_the_text
  (isprintable : codepoint -> bool) (rc : Z) (text err : pystr) :
  Forall (read_off text) (FUNCTION_RE_findall text)
  /\ printed isprintable (completes rc text err)
     = List.map (line_of isprintable) (FUNCTION_RE_findall text).
Proof.
  split; [apply scan_read_off | apply printed_completes].
Qed.

Lemma contains_entry_match text :
  contains_entry text ->
  exists pre s m post x, text = pre ++ s /\ matches_at s m post x.
Proof.
  intros (pre & ws & name & ps & rt & post & -> & Hh & Hr).
  exists pre, (head_text ws name ps ++ rt ++ post),
         (head_text ws name ps ++ rt), post, (Tuple [name; ps; rt]).
  split; [reflexivity|]. apply matches_at_shape.
  exists ws, name, ps, rt. repeat split; try apply Hh; try apply Hr.
  rewrite <- app_assoc. reflexivity.
Qed.

(** X2.  The script prints nothing exactly when the captured text holds no
    well-formed entry at all: one entry anywhere in the text is enough for
    at least one tuple to be printed. *)
Theorem silent_exactly_without_entry
  (isprintable : codepoint -> bool) (rc : Z) (text err : pystr) :
  printed isprintable (completes rc text err) = [] <-> ~ contains_entry text.
Proof.
  rewrite printed_completes. split.
  - intros H Hc.
    assert (E : FUNCTION_RE_findall text = []).
    { destruct (FUNCTION_RE_findall text); [reflexivity | discriminate H]. }
    assert (HS : Scan text []) by (apply Scan_findall; symmetry; exact E).
    apply contains_entry_match in Hc.
    destruct Hc as (pre & s & m & post & x & Et & Hm).
    inversion HS as [s0 Hall Es | ]. subst s0.
    exact (Hall pre s Et _ _ _ Hm).
  - intros H.
    destruct (FUNCTION_RE_findall text) as [|x l] eqn:E; [reflexivity|].
    exfalso. apply H.
    pose proof (scan_read_off 0 text) as HF.
    unfold FUNCTION_RE_findall, findall in E. rewrite E in HF.
    inversion HF as [|? ? Hx _]. subst.
    destruct Hx as (pre & ws & name & ps & rt & post & _ & Et & Hh & Hr & _).
    exists pre, ws, name, ps, rt, post. repeat split; try assumption;
      try apply Hh; try apply Hr.
Qed.

(** ** Bounds on the number of tuples *)

Lemma match_here_length s c :
  match_here true FUNCTION_RE s = Some c ->
  length (rest c) + 15 <= length s.
Proof.
  intros H. apply match_here_entry in H.
  destruct H as (ws & name & ps & rt & (Hh & Hr & -> & _) & _).
  destruct Hh as (L & _ & Nn & _). destruct Hr as (Nr & _).
  unfold head_text. repeat rewrite length_app. simpl.
  destruct name; [contradiction|]. destruct rt; [contradiction|].
  simpl. lia.
Qed.

Lemma scan_length n s :
  n <= length s -> 15 * length (scan true FUNCTION_RE n s) + n <= length s.
Proof.
  revert n. induction s as [|x s IH]; intros n Hn.
  - simpl in *. destruct n; simpl; lia.
  - cbn [scan]. destruct n as [|n].
    + destruct (match_here true FUNCTION_RE (x :: s)) as [c|] eqn:E.
      * apply match_here_length in E. cbn [length] in E |- *.
        specialize (IH (S (length s) - length (rest c) - 1)). lia.
      * specialize (IH 0). cbn [length]. lia.
    + specialize (IH n). cbn [length] in *. lia.
Qed.

(** X3.  An entry takes at least fifteen characters of the text (four of
    indentation, [ - ], a name, two parentheses, [ -> ] and a return type),
    and matches do not overlap: the script prints at most one tuple per
    fifteen characters of captured text, and none on a shorter text. *)
Theorem fifteen_characters_per_tuple
  (isprintable : codepoint -> bool) (rc : Z) (text err : pystr) :
  15 * length (printed isprintable (completes rc text err)) <= length text.
Proof.
  rewrite printed_completes, length_map.
  pose proof (@scan_length 0 text) as H. unfold FUNCTION_RE_findall, findall. lia.
Qed.

Lemma scan_marks n s : length (scan true FUNCTION_RE n s) <= count_marks s.
Proof.
  revert n. induction s as [|x s IH]; intros n.
  - simpl. destruct n; simpl; lia.
  - cbn [scan count_marks]. destruct n as [|n].
    + destruct (match_here true FUNCTION_RE (x :: s)) as [c|] eqn:E.
      * apply match_here_mark in E. rewrite E.
        specialize (IH (length (x :: s) - length (rest c) - 1)).
        cbn [length] in *. lia.
      * specialize (IH 0). lia.
    + specialize (IH n). lia.
Qed.

(** X4.  Every tuple starts at a place of its own where four white-space
    characters are followed by the literal [ - ]: the script prints no more
    tuples than the captured text has such places. *)
Theorem one_tuple_per_indentation_mark
  (isprintable : codepoint -> bool) (rc : Z) (text err : pystr) :
  length (printed isprintable (completes rc text err)) <= count_marks text.
Proof.
  rewrite printed_completes, length_map. apply scan_marks.
Qed.

(** ** An entry and what follows it *)

Lemma nonempty_false s : nonempty s = false -> s = [].
Proof. destruct s; [reflexivity | discriminate]. Qed.

(** X5.  Writing an entry and reading it back: on a text that starts with
    four white-space characters, [ - ], a name, a parenthesised parameter
    list, [ -> ] and a return type, and goes on with a character that no
    return type holds (or ends there), the first tuple found is (name,
    parameter list, return type) and the others are those of the rest of the
    text. *)
Theorem entry_then_rest (ws name ps rt post : pystr) :
  length ws = 4 -> forallb is_space ws = true ->
  nonempty name = true -> forallb ident_char name = true ->
  fullmatch true PARAMS_RE ps = true ->
  nonempty rt = true -> forallb rtype_char rt = true ->
  nonempty (run_of rtype_char post) = false ->
  FUNCTION_RE_findall (head_text ws name ps ++ rt ++ post)
  = Tuple [name; ps; rt] :: FUNCTION_RE_findall post.
Proof.
  intros L Hws Nn Hn Hps Nr Hr Hpost.
  unfold FUNCTION_RE_findall, findall.
  assert (E : match_here true FUNCTION_RE (head_text ws name ps ++ rt ++ post)
              = Some (post, groups_of name ps rt)).
  { apply match_here_spec. exists ws, name, ps, rt. split; [|reflexivity].
    repeat split; try assumption.
    - apply nonempty_true; assumption.
    - apply fullmatch_params; assumption.
    - apply nonempty_true; assumption.
    - apply nonempty_false; assumption. }
  rewrite (@scan_hit _ _ E). reflexivity.
Qed.

Lemma entry_then_rest_witness :
  FUNCTION_RE_findall
    (head_text [TAB; LF; SP; SP] (str "len") (str "col, *") ++ str "number"
     ++ (LF :: trim_line))
  = Tuple [str "len"; str "col, *"; str "number"]
    :: FUNCTION_RE_findall (LF :: trim_line).
Proof.
  apply (@entry_then_rest [TAB; LF; SP; SP] (str "len") (str "col, *")
           (str "number") (LF :: trim_line)); reflexivity.
Defined.

(** ** The flag [re.I] *)

Section Renaming.

(** A renaming that the lower-casing of the matcher undoes. *)
Variable f : codepoint -> codepoint.
Hypothesis f_lower : forall ch, lower (f ch) = lower ch.

Lemma in_set_renamed items ch : in_set true items (f ch) = in_set true items ch.
Proof. unfold in_set. rewrite f_lower. reflexivity. Qed.

Lemma literal_ok_renamed c ch : literal_ok true c (f ch) = literal_ok true c ch.
Proof. unfold literal_ok. rewrite f_lower. reflexivity. Qed.

Lemma consumed_renamed st st' :
  consumed (map_state f st) (map_state f st') = List.map f (consumed st st').
Proof.
  unfold consumed, map_state. cbn [rest fst]. rewrite !length_map.
  apply firstn_map.
Qed.

Lemma rest_length_renamed st :
  length (rest (map_state f st)) = length (rest st).
Proof. unfold map_state. cbn [rest fst]. apply length_map. Qed.

Lemma mark_renamed g s cs :
  mark g (List.map f s) (map_caps f cs) = map_caps f (mark g s cs).
Proof. destruct g; reflexivity. Qed.

Section Matcher_renamed.

Variables A B : Type.
Variable g : A -> B.

Lemma repeat_min_renamed body body' n :
  body_renamed f g body body' ->
  body_renamed f g (fun k => repeat_min body n k) (fun k' => repeat_min body' n k').
Proof.
  intros Hb. induction n as [|n IH]; intros k k' Hk; simpl.
  - exact Hk.
  - apply Hb. apply IH. exact Hk.
Qed.

Lemma repeat_greedy_renamed body body' n :
  body_renamed f g body body' ->
  body_renamed f g (fun k => repeat_greedy body n k)
               (fun k' => repeat_greedy body' n k').
Proof.
  intros Hb. induction n as [|n IH]; intros k k' Hk st; simpl.
  - apply Hk.
  - rewrite (Hb
      (fun st' => if length (rest st') <? length (rest st)
                  then repeat_greedy body n k st' else None)
      (fun st' => if length (rest st') <? length (rest (map_state f st))
                  then repeat_greedy body' n k' st' else None)).
    + destruct (body _ st); [reflexivity | apply Hk].
    + intros st'. rewrite !rest_length_renamed.
      destruct (length (rest st') <? length (rest st)); [|reflexivity].
      apply (IH k k' Hk).
Qed.

Lemma sre_match_renamed r :
  body_renamed f g (sre_match true r) (sre_match true r).
Proof.
  induction r as [| x | items | r1 IH1 r2 IH2 | lo hi r1 IH1 | gr r1 IH1];
    intros k k' Hk st.
  - apply Hk.
  - destruct st as [[|ch s] cs]; [reflexivity|].
    cbn [sre_match map_state rest caps fst snd List.map].
    rewrite literal_ok_renamed.
    destruct (literal_ok true x ch); [apply (Hk (s, cs)) | reflexivity].
  - destruct st as [[|ch s] cs]; [reflexivity|].
    cbn [sre_match map_state rest caps fst snd List.map].
    rewrite in_set_renamed.
    destruct (in_set true items ch); [apply (Hk (s, cs)) | reflexivity].
  - cbn [sre_match]. apply IH1. apply IH2. exact Hk.
  - cbn [sre_match].
    apply (repeat_min_renamed lo IH1).
    intros st1.
    replace (budget lo hi (map_state f st1)) with (budget lo hi st1)
      by (destruct hi; cbn [budget];
          [reflexivity | symmetry; apply rest_length_renamed]).
    apply (repeat_greedy_renamed (budget lo hi st1) IH1). exact Hk.
  - cbn [sre_match]. apply IH1. intros st'.
    rewrite consumed_renamed.
    change (caps (map_state f st')) with (map_caps f (caps st')).
    rewrite mark_renamed. apply (Hk (rest st', mark gr (consumed st st') (caps st'))).
Qed.

End Matcher_renamed.

Lemma match_here_renamed r s :
  match_here true r (List.map f s)
  = option_map (map_state f) (match_here true r s).
Proof.
  unfold match_here.
  apply (@sre_match_renamed state state (map_state f) r
           (fun st => Some st) (fun st => Some st)
           (fun st => eq_refl) (s, [])).
Qed.

Lemma group_text_renamed cs i :
  group_text (map_caps f cs) i = List.map f (group_text cs i).
Proof.
  unfold group_text. induction cs as [|[j s] cs IH]; [reflexivity|].
  simpl. destruct (Nat.eqb i j); [reflexivity | exact IH].
Qed.

Lemma item_of_renamed r whole cs :
  item_of r (List.map f whole) (map_caps f cs) = map_item f (item_of r whole cs).
Proof.
  unfold item_of. destruct (ngroups r) as [|[|n]]; simpl.
  - reflexivity.
  - rewrite group_text_renamed. reflexivity.
  - rewrite !group_text_renamed, !map_map. do 3 f_equal.
    apply map_ext. intros i. apply group_text_renamed.
Qed.

Lemma scan_renamed r n s :
  scan true r n (List.map f s) = List.map (map_item f) (scan true r n s).
Proof.
  revert n. induction s as [|x s IH]; intros n.
  - cbn [List.map scan]. change (@nil codepoint) with (List.map f []) at 1.
    rewrite match_here_renamed.
    destruct n; [|reflexivity].
    destruct (match_here true r []) as [st|]; [|reflexivity].
    simpl. change (@nil codepoint) with (List.map f []) at 1.
    rewrite item_of_renamed. reflexivity.
  - cbn [scan List.map]. destruct n as [|n]; [|apply IH].
    change (f x :: List.map f s) with (List.map f (x :: s)).
    rewrite match_here_renamed.
    destruct (match_here true r (x :: s)) as [st|]; [|apply IH].
    cbn [option_map]. rewrite (map_cons (map_item f)). f_equal.
    + change (List.map f (x :: s), @nil (nat * pystr))
        with (map_state f (x :: s, [])).
      rewrite consumed_renamed. apply item_of_renamed.
    + rewrite rest_length_renamed, !length_map. apply IH.
Qed.

End Renaming.

Lemma lower_upper_ascii ch : lower (upper_ascii ch) = lower ch.
Proof.
  unfold upper_ascii.
  destruct ((97 <=? ch) && (ch <=? 122))%N eqn:E; [|reflexivity].
  apply andb_prop in E. destruct E as [E1 E2].
  apply N.leb_le in E1. apply N.leb_le in E2.
  unfold lower.
  repeat match goal with
  | |- context [(?a <=? ?b)%N] => destruct (N.leb_spec a b)
  | |- context [(?a =? ?b)%N] => destruct (N.eqb_spec a b)
  end; cbn [andb]; lia.
Qed.

Lemma lower_lower_ascii ch : lower (lower_ascii ch) = lower ch.
Proof.
  unfold lower_ascii.
  destruct ((65 <=? ch) && (ch <=? 90))%N eqn:E; [|reflexivity].
  apply andb_prop in E. destruct E as [E1 E2].
  apply N.leb_le in E1. apply N.leb_le in E2.
  unfold lower.
  repeat match goal with
  | |- context [(?a <=? ?b)%N] => destruct (N.leb_spec a b)
  | |- context [(?a =? ?b)%N] => destruct (N.eqb_spec a b)
  end; cbn [andb]; lia.
Qed.

(** X6.  The flag [re.I]: the case of the ASCII letters of the captured text
    plays no part in what is matched.  Putting the whole text in capitals, or
    in small letters, leaves the matches where they are and changes the
    tuples by the same change of case only. *)
Theorem case_of_the_text_is_carried_through (text : pystr) :
  FUNCTION_RE_findall (List.map upper_ascii text)
  = List.map (map_item upper_ascii) (FUNCTION_RE_findall text)
  /\ FUNCTION_RE_findall (List.map lower_ascii text)
     = List.map (map_item lower_ascii) (FUNCTION_RE_findall text).
Proof.
  split.
  - apply (scan_renamed upper_ascii lower_upper_ascii).
  - apply (scan_renamed lower_ascii lower_lower_ascii).
Qed.

(** ** The parameter lists the pattern accepts *)

Lemma space_is_no_param ch : is_space ch = true -> param_char ch = false.
Proof.
  intros H. unfold is_space in H.
  repeat (apply orb_prop in H; destruct H as [H | H]);
    try (apply andb_prop in H; destruct H as [H1 H2];
         apply N.leb_le in H1; apply N.leb_le in H2);
    try (apply N.eqb_eq in H; subst ch; reflexivity).
  - assert (C : (ch = 9 \/ ch = 10 \/ ch = 11 \/ ch = 12 \/ ch = 13)%N) by lia.
    repeat (destruct C as [C | C]; [subst ch; reflexivity|]).
    subst ch; reflexivity.
  - assert (C : (ch = 28 \/ ch = 29 \/ ch = 30 \/ ch = 31 \/ ch = 32)%N) by lia.
    repeat (destruct C as [C | C]; [subst ch; reflexivity|]).
    subst ch; reflexivity.
  - assert (C : (ch = 8192 \/ ch = 8193 \/ ch = 8194 \/ ch = 8195 \/ ch = 8196
                \/ ch = 8197 \/ ch = 8198 \/ ch = 8199 \/ ch = 8200
                \/ ch = 8201 \/ ch = 8202)%N) by lia.
    repeat (destruct C as [C | C]; [subst ch; reflexivity|]).
    subst ch; reflexivity.
Qed.

Lemma pass_params b w t :
  forallb param_char w = true ->
  params_pass b (w ++ t) = params_pass (match w with [] => b | _ :: _ => false end) t.
Proof.
  revert b. induction w as [|ch w IH]; intros b H; [reflexivity|].
  cbn [forallb] in H. apply andb_prop in H. destruct H as [Hc Hw].
  cbn [app params_pass]. rewrite Hc, (IH false Hw). destruct w; reflexivity.
Qed.

Lemma pass_spaces b sp t :
  forallb is_space sp = true -> params_pass b (sp ++ t) = params_pass b t.
Proof.
  induction sp as [|ch sp IH]; intros H; [reflexivity|].
  cbn [forallb] in H. apply andb_prop in H. destruct H as [Hc Hs].
  cbn [app params_pass]. rewrite (space_is_no_param ch Hc), Hc. exact (IH Hs).
Qed.

Lemma params_ok_pass b ps : params_ok ps = true -> params_pass b ps = true.
Proof.
  destruct ps as [|ch ps]; [reflexivity|].
  cbn [params_ok params_pass]. intros H. apply andb_prop in H.
  destruct H as [Hc H]. rewrite Hc in H |- *. exact H.
Qed.

Lemma param_list_ok ps : param_list ps -> params_ok ps = true.
Proof.
  induction 1 as [|w sp1 cm sp2 ps Nw Hw Hs1 Hcm Hs2 Hps IH]; [reflexivity|].
  destruct w as [|ch w]; [contradiction|].
  assert (Hc : param_char ch = true)
    by (cbn [forallb] in Hw; apply andb_prop in Hw; apply Hw).
  change (params_ok ((ch :: w) ++ sp1 ++ cm ++ sp2 ++ ps))
    with (param_char ch && params_pass false ((ch :: w) ++ sp1 ++ cm ++ sp2 ++ ps)).
  rewrite Hc, (pass_params false (ch :: w) _ Hw), (pass_spaces false sp1 _ Hs1).
  destruct Hcm as [-> | ->]; cbn [app andb].
  - rewrite (pass_spaces false sp2 _ Hs2). apply params_ok_pass, IH.
  - change (params_pass false (COMMA :: sp2 ++ ps))
      with (params_pass true (sp2 ++ ps)).
    rewrite (pass_spaces true sp2 _ Hs2). apply params_ok_pass, IH.
Qed.

Lemma pass_run_params s :
  params_pass false s = params_pass false (after_run param_char s).
Proof.
  induction s as [|ch s IH]; [reflexivity|].
  cbn [after_run]. destruct (param_char ch) eqn:E; [|reflexivity].
  cbn [params_pass]. rewrite E. exact IH.
Qed.

Lemma pass_run_spaces b s :
  params_pass b s = params_pass b (after_run is_space s).
Proof.
  induction s as [|ch s IH]; [reflexivity|].
  cbn [after_run]. destruct (is_space ch) eqn:E; [|reflexivity].
  cbn [params_pass]. rewrite (space_is_no_param ch E), E. exact IH.
Qed.

Lemma after_run_head p s ch t : after_run p s = ch :: t -> p ch = false.
Proof.
  intros E. pose proof (run_of_after_run p s) as H. rewrite E in H.
  simpl in H. destruct (p ch); [discriminate H | reflexivity].
Qed.

Lemma ok_param_list n :
  forall s, length s <= n -> params_ok s = true -> param_list s.
Proof.
  induction n as [|n IH]; intros s L H.
  - destruct s; [constructor | simpl in L; lia].
  - destruct s as [|ch s0]; [constructor|].
    cbn [params_ok] in H. apply andb_prop in H. destruct H as [Hc H].
    set (s := ch :: s0) in *.
    set (w := run_of param_char s). set (s1 := after_run param_char s).
    set (sp1 := run_of is_space s1). set (s2 := after_run is_space s1).
    assert (Es : s = w ++ sp1 ++ s2).
    { unfold w, sp1, s2, s1. rewrite <- run_split. apply run_split. }
    assert (Nw : w <> []) by (unfold w, s; simpl; rewrite Hc; discriminate).
    assert (Lw : 0 < length w) by (destruct w; [contradiction | simpl; lia]).
    assert (Hw : forallb param_char w = true) by apply run_of_accepted.
    assert (Hs1 : forallb is_space sp1 = true) by apply run_of_accepted.
    rewrite pass_run_params in H. fold s1 in H.
    rewrite pass_run_spaces in H. fold s2 in H.
    assert (L2 : length s2 <= n).
    { apply (f_equal (@length codepoint)) in Es. rewrite !length_app in Es.
      lia. }
    rewrite Es.
    destruct s2 as [|c s3] eqn:E2.
    + apply (@params_cons w sp1 [] [] []); try assumption;
        try reflexivity; try (left; reflexivity); try apply params_nil.
    + pose proof (after_run_head is_space s1 E2) as Nc.
      cbn [params_pass] in H. rewrite Nc in H.
      destruct (param_char c) eqn:Pc.
      * apply (@params_cons w sp1 [] [] (c :: s3)); try assumption;
          try reflexivity; try (left; reflexivity).
        apply IH; [exact L2|]. cbn [params_ok params_pass]. rewrite Pc. exact H.
      * destruct (N.eqb_spec c COMMA) as [-> | Ne]; [|discriminate H].
        cbn [negb andb] in H.
        set (sp2 := run_of is_space s3). set (s4 := after_run is_space s3).
        assert (E3 : s3 = sp2 ++ s4) by apply run_split.
        assert (Hs2 : forallb is_space sp2 = true) by apply run_of_accepted.
        rewrite pass_run_spaces in H. fold s4 in H.
        assert (L4 : length s4 <= n).
        { apply (f_equal (@length codepoint)) in E3. rewrite length_app in E3.
          simpl in L2. lia. }
        rewrite E3.
        apply (@params_cons w sp1 [COMMA] sp2 s4); try assumption;
          try (right; reflexivity).
        destruct s4 as [|c' s5] eqn:E4; [constructor|].
        pose proof (after_run_head is_space s3 E4) as Nc'.
        cbn [params_pass] in H. rewrite Nc' in H.
        destruct (param_char c') eqn:Pc'.
        -- apply IH; [exact L4|]. cbn [params_ok params_pass]. rewrite Pc'. exact H.
        -- destruct (c' =? COMMA)%N; discriminate H.
Qed.

(** X7.  The parameter part of the pattern, for all its nested repeats,
    accepts exactly the lists that one pass from left to right accepts: the
    empty list, and the lists that start with a parameter character, are made
    of parameter characters, white space and commas, and have a parameter
    character between any two commas. *)
Theorem parameter_lists_in_one_pass (ps : pystr) :
  fullmatch true PARAMS_RE ps = params_ok ps.
Proof.
  destruct (params_ok ps) eqn:E.
  - apply fullmatch_params. apply (ok_param_list (n := length ps)); [lia | exact E].
  - destruct (fullmatch true PARAMS_RE ps) eqn:F; [|reflexivity].
    apply fullmatch_params, param_list_ok in F. congruence.
Qed.

(** ** The form of a printed line *)

Lemma mem_excluded (p : codepoint -> bool) c s :
  p c = false -> forallb p s = true -> mem c s = false.
Proof.
  intros Hc. induction s as [|ch s IH]; [reflexivity|].
  cbn [forallb]. intros H. apply andb_prop in H. destruct H as [Hp Hs].
  unfold mem in *. cbn [existsb]. rewrite (IH Hs), orb_false_r.
  destruct (N.eqb_spec c ch) as [-> |]; [congruence | reflexivity].
Qed.

Lemma mem_app c (a b : pystr) : mem c (a ++ b) = mem c a || mem c b.
Proof. apply existsb_app. Qed.

Lemma param_list_chars ps : param_list ps -> forallb params_char ps = true.
Proof.
  assert (W : forall p s, (forall ch, p ch = true -> params_char ch = true) ->
                          forallb p s = true -> forallb params_char s = true).
  { intros p s Hp. apply forallb_weaken. exact Hp. }
  induction 1 as [|w sp1 cm sp2 ps Nw Hw Hs1 Hcm Hs2 Hps IH]; [reflexivity|].
  repeat rewrite forallb_app.
  rewrite (W param_char w), (W is_space sp1), (W is_space sp2), IH;
    try assumption;
    try (intros ch E; unfold params_char; rewrite E, ?orb_true_r; reflexivity).
  destruct Hcm as [-> | ->]; reflexivity.
Qed.

Lemma repr_single_quotes isprintable s :
  mem SQUOTE s = false -> repr isprintable s = quoted isprintable s.
Proof.
  intros H. unfold repr, quoted, quote_of. rewrite H. reflexivity.
Qed.

Lemma read_off_quotes text x :
  read_off text x ->
  exists name ps rt,
    x = Tuple [name; ps; rt]
    /\ mem SQUOTE name = false /\ mem SQUOTE ps = false /\ mem SQUOTE rt = false
    /\ mem BACKSLASH name = false /\ mem BACKSLASH ps = false
    /\ mem BACKSLASH rt = false.
Proof.
  intros (pre & ws & name & ps & rt & post & -> & _ & Hh & Hr & _).
  destruct Hh as (_ & _ & _ & Hn & Hps). destruct Hr as (_ & Hr).
  apply param_list_chars in Hps.
  exists name, ps, rt. split; [reflexivity|].
  repeat split;
    first [ apply (@mem_excluded ident_char _ name); [reflexivity | exact Hn]
          | apply (@mem_excluded params_char _ ps); [reflexivity | exact Hps]
          | apply (@mem_excluded rtype_char _ rt); [reflexivity | exact Hr] ].
Qed.

(** X8.  No field of a tuple holds a quote or a backslash, since no set of
    the pattern does.  So every printed line has one form: an opening
    parenthesis, the three fields between single quotes and separated by a
    comma and a space, a closing parenthesis and a line break. *)
Theorem printed_lines_use_single_quotes
  (isprintable : codepoint -> bool) (rc : Z) (text err : pystr) :
  Forall (fun l =>
            exists name ps rt,
              List.In (Tuple [name; ps; rt]) (FUNCTION_RE_findall text)
              /\ mem SQUOTE (name ++ ps ++ rt) = false
              /\ mem BACKSLASH (name ++ ps ++ rt) = false
              /\ l = str "(" ++ quoted isprintable name ++ str ", "
                     ++ quoted isprintable ps ++ str ", "
                     ++ quoted isprintable rt ++ str ")" ++ [LF])
         (printed isprintable (completes rc text err)).
Proof.
  rewrite printed_completes. apply Forall_forall. intros l Hl.
  apply in_map_iff in Hl. destruct Hl as (x & <- & Hx).
  pose proof (scan_read_off 0 text) as HF. rewrite Forall_forall in HF.
  destruct (read_off_quotes (HF x Hx))
    as (name & ps & rt & -> & Q1 & Q2 & Q3 & B1 & B2 & B3).
  exists name, ps, rt. split; [exact Hx|].
  rewrite !mem_app, Q1, Q2, Q3, B1, B2, B3.
  repeat split.
  unfold line_of, to_str, repr_tuple. cbn [List.map join].
  rewrite (repr_single_quotes isprintable name Q1),
          (repr_single_quotes isprintable ps Q2),
          (repr_single_quotes isprintable rt Q3).
  repeat rewrite <- app_assoc. reflexivity.
Qed.
